(** * simularity_set.py: adjacency of segmentation regions and their similarity

    A shallow embedding of [src/simularity_set.py]: the [bounding_box] value
    class and the [simularity_set] class (adjacency discovery over a label
    image, removal of pairs with pruning of the region set, bounding boxes and
    the size / fill / colour similarity functions).

    Conventions.
    - Region labels and pixel coordinates are Python / numpy integers; they are
      modelled as [Z] (they are only compared, added and subtracted, and stay
      far below the 64-bit range of numpy's index type).
    - Python sets are [gset]s, the bounding-box dict is a [gmap].
    - A function that can raise returns a [result]; a method that mutates the
      object and can raise returns the object as it is left together with a
      [result].
    - A Python float is a binary64 number.  A finite one is modelled by its
      exact rational value in [Q], and every operation rounds its exact
      result to the nearest binary64 value, ties to even ([round64]); the sign
      of a zero is not modelled.  Python 3's true division [/] of two
      integers gives the correctly rounded quotient, raises
      [ZeroDivisionError] on a zero divisor and [OverflowError] when the
      quotient is too large for a float. *)

From Stdlib Require Import ZArith QArith Qround Qabs Qpower Qreduction.
From Stdlib Require Import Lqa String Lia.
From Stdlib Require SpecFloat.
From stdpp Require Import gmap sets list.

#[local] Open Scope Z_scope.
#[local] Set Warnings "-clear-no-such-hyp".

(** ** Exceptions *)

Inductive exn : Type :=
| KeyError
| ValueError
| ZeroDivisionError
| OverflowError
| ExternalError (msg : string).

Inductive result (A : Type) : Type :=
| Ok (a : A)
| Raise (e : exn).
Arguments Ok {A} a.
Arguments Raise {A} e.

#[global] Instance result_ret : MRet result := λ A a, Ok a.
#[global] Instance result_bind : MBind result := λ A B k m,
  match m with
  | Ok a => k a
  | Raise e => Raise e
  end.

(** ** class bounding_box *)

(** The [region] attribute of a box: a label for a box made by
    [create_bounding_box], the tuple of the two source tags for a box made by
    [combine_bounding_boxes]. *)
Inductive region_tag : Type :=
| Label (l : Z)
| Tuple (a b : region_tag).

Record bounding_box : Type := Build_bounding_box {
  region : region_tag;
  row_start : Z;
  col_start : Z;
  bb_height : Z;
  bb_width : Z
}.

(** [self.x0 = self.col_start] and [self.y0 = self.row_start]. *)
Definition x0 (self : bounding_box) : Z := col_start self.
Definition y0 (self : bounding_box) : Z := row_start self.

(** [bounding_box.__len__]: the raw product, before [len] checks its sign. *)
Definition bounding_box_len (self : bounding_box) : Z :=
  bb_height self * bb_width self.

(** [sys.maxsize] of a 64-bit CPython. *)
Definition sys_maxsize : Z := 2 ^ 63 - 1.

(** The builtin [len(box)]: Python refuses a negative [__len__] with
    [ValueError], and one that does not fit an index with [OverflowError]. *)
Definition len (self : bounding_box) : result Z :=
  if bool_decide (0 ≤ bounding_box_len self)
  then
    if bool_decide (bounding_box_len self ≤ sys_maxsize)
    then Ok (bounding_box_len self)
    else Raise OverflowError
  else Raise ValueError.

(** [simularity_set.combine_bounding_boxes]; it does not read [self].
    Note [max_col_b]: the source adds [box_b.width] to [box_b.row_start]. *)
Definition combine_bounding_boxes (box_a box_b : bounding_box) : bounding_box :=
  let row_start' := Z.min (row_start box_a) (row_start box_b) in
  let col_start' := Z.min (col_start box_a) (col_start box_b) in
  let max_row_a := row_start box_a + bb_height box_a in
  let max_col_a := col_start box_a + bb_width box_a in
  let max_row_b := row_start box_b + bb_height box_b in
  let max_col_b := row_start box_b + bb_width box_b in
  let height' := Z.max max_row_a max_row_b - row_start' in
  let width' := Z.max max_col_a max_col_b - col_start' in
  Build_bounding_box (Tuple (region box_a) (region box_b))
    row_start' col_start' height' width'.

(** The union of two boxes in the words of the specification: origin the
    component-wise minimum, extent the component-wise maximum of
    origin + extent, minus the new origin. *)
Definition spec_union (box_a box_b : bounding_box) : bounding_box :=
  let row_start' := Z.min (row_start box_a) (row_start box_b) in
  let col_start' := Z.min (col_start box_a) (col_start box_b) in
  Build_bounding_box (Tuple (region box_a) (region box_b))
    row_start' col_start'
    (Z.max (row_start box_a + bb_height box_a)
           (row_start box_b + bb_height box_b) - row_start')
    (Z.max (col_start box_a + bb_width box_a)
           (col_start box_b + bb_width box_b) - col_start').

(** A box [outer] contains [inner]: origin no larger, origin + extent no
    smaller, on both axes. *)
Definition contains_box (outer inner : bounding_box) : Prop :=
  row_start outer ≤ row_start inner ∧
  col_start outer ≤ col_start inner ∧
  row_start inner + bb_height inner ≤ row_start outer + bb_height outer ∧
  col_start inner + bb_width inner ≤ col_start outer + bb_width outer.

Definition well_formed_box (b : bounding_box) : Prop :=
  0 ≤ bb_height b ∧ 0 ≤ bb_width b.

(** ** Arrays and collaborators *)

(** A two-dimensional numpy array of labels, as the list of its rows (all of
    the same length). *)
Definition ndarray : Type := list (list Z).

(** [a.shape] *)
Definition shape (a : ndarray) : nat * nat :=
  (length a, length (hd [] a)).

(** [a[row, col]], read only at indices inside the shape. *)
Definition item (a : ndarray) (row col : nat) : Z :=
  default 0 (a !! row ≫= λ cells, cells !! col).

(** The colour image, H x W x 3; the class only stores it and hands it to the
    histogram utility. *)
Definition color_image : Type := list (list (list Z)).

Definition color_shape (im : color_image) : nat * nat :=
  (length im, length (hd [] im)).

(** Modelled from the spec: the union-find collaborator is not part of the
    source.  [find(label)] returns a representative node that carries a pixel
    count [size], a Python int; [node_label] is the region id as which the
    node compares against the entries of the label image. *)
Record node : Type := Build_node {
  node_label : Z;
  size_of : Z
}.

Record disjoint_set_t : Type := Build_disjoint_set {
  find : Z → node
}.

(** ** class simularity_set *)

Record simularity_set : Type := Build_simularity_set {
  region_image : ndarray;
  region_set : gset Z;
  sim_set : gset (Z * Z);
  image : color_image;
  disjoint_set : disjoint_set_t;
  height : nat;
  width : nat;
  image_size : Z;
  bounding_boxes : gmap Z bounding_box
}.

Definition with_sim_set (self : simularity_set) (s : gset (Z * Z)) : simularity_set :=
  Build_simularity_set (region_image self) (region_set self) s (image self)
    (disjoint_set self) (height self) (width self) (image_size self)
    (bounding_boxes self).

Definition with_region_set (self : simularity_set) (s : gset Z) : simularity_set :=
  Build_simularity_set (region_image self) s (sim_set self) (image self)
    (disjoint_set self) (height self) (width self) (image_size self)
    (bounding_boxes self).

Definition with_bounding_boxes (self : simularity_set) (m : gmap Z bounding_box)
  : simularity_set :=
  Build_simularity_set (region_image self) (region_set self) (sim_set self)
    (image self) (disjoint_set self) (height self) (width self)
    (image_size self) m.

(** [__len__]: the number of regions currently in the region set. *)
Definition simularity_set_len (self : simularity_set) : nat :=
  size (region_set self).

Definition get_sim_set (self : simularity_set) : gset (Z * Z) := sim_set self.
Definition get_regions (self : simularity_set) : gset Z := region_set self.

(** [add_set] *)
Definition add_set (self : simularity_set) (region_a region_b : Z) : simularity_set :=
  if bool_decide (region_a ≠ region_b) then
    let self1 :=
      if bool_decide ((region_b, region_a) ∉ sim_set self)
      then with_sim_set self ({[ (region_a, region_b) ]} ∪ sim_set self)
      else self in
    let self2 := with_region_set self1 ({[ region_a ]} ∪ region_set self1) in
    with_region_set self2 ({[ region_b ]} ∪ region_set self2)
  else self.

(** [x in item] for a 2-tuple [item]. *)
Definition tuple_contains (x : Z) (item : Z * Z) : Prop :=
  x = item.1 ∨ x = item.2.

#[global] Instance tuple_contains_dec x item : Decision (tuple_contains x item).
Proof. unfold tuple_contains. apply _. Defined.

(** [set.remove(x)]: raises [KeyError] when [x] is not a member. *)
Definition set_remove (x : Z) (s : gset Z) : result (gset Z) :=
  if bool_decide (x ∈ s) then Ok (s ∖ {[ x ]}) else Raise KeyError.

(** [{item for item in self.sim_set if x in item} == set()] *)
Definition no_set_with (self : simularity_set) (x : Z) : bool :=
  bool_decide (filter (tuple_contains x) (sim_set self) = ∅).

(** [remove_set]: the object as the call leaves it, and how the call ended. *)
Definition remove_set (self : simularity_set) (s : Z * Z)
  : simularity_set * result unit :=
  let self1 :=
    if bool_decide (s ∈ sim_set self)
    then with_sim_set self (sim_set self ∖ {[ s ]})
    else self in
  let self2 :=
    if bool_decide ((s.2, s.1) ∈ sim_set self1)
    then with_sim_set self1 (sim_set self1 ∖ {[ (s.2, s.1) ]})
    else self1 in
  match (if no_set_with self2 s.1
         then set_remove s.1 (region_set self2)
         else Ok (region_set self2)) with
  | Raise e => (self2, Raise e)
  | Ok rs3 =>
      let self3 := with_region_set self2 rs3 in
      match (if no_set_with self3 s.2
             then set_remove s.2 (region_set self3)
             else Ok (region_set self3)) with
      | Raise e => (self3, Raise e)
      | Ok rs4 => (with_region_set self3 rs4, Ok ())
      end
  end.

(** [get_indices_of_region]: the (row, col) of every entry equal to [region],
    in row-major order, as [np.transpose(... .nonzero())] lists them. *)
Definition get_indices_of_region (self : simularity_set) (region : Z)
  : list (Z * Z) :=
  row ← seq 0 (height self);
  col ← seq 0 (width self);
  if bool_decide (item (region_image self) row col = region)
  then [(Z.of_nat row, Z.of_nat col)]
  else [].

(** The builtins [min] and [max] over a sequence: [ValueError] when empty. *)
Definition py_min (l : list Z) : result Z :=
  match l with
  | [] => Raise ValueError
  | x :: l' => Ok (foldl Z.min x l')
  end.

Definition py_max (l : list Z) : result Z :=
  match l with
  | [] => Raise ValueError
  | x :: l' => Ok (foldl Z.max x l')
  end.

(** [create_bounding_box] *)
Definition create_bounding_box (self : simularity_set) (region : Z)
  : result bounding_box :=
  let indices := get_indices_of_region self region in
  row_start ← py_min (indices.*1);
  col_start ← py_min (indices.*2);
  max_row ← py_max (indices.*1);
  let height := max_row - row_start in
  max_col ← py_max (indices.*2);
  let width := max_col - col_start in
  Ok (Build_bounding_box (Label region) row_start col_start height width).

(** [combine_bounding_boxes] as a method. *)
Definition combine_bounding_boxes_m (self : simularity_set)
  (box_a box_b : bounding_box) : bounding_box :=
  combine_bounding_boxes box_a box_b.

(** *** __init__ *)

(** The body of the two nested loops of [__init__] at one pixel. *)
Definition visit_pixel (self : simularity_set) (row col : nat) : simularity_set :=
  let current_region := item (region_image self) row col in
  let self1 :=
    if bool_decide (col + 1 < width self)%nat
    then add_set self current_region (item (region_image self) row (col + 1))
    else self in
  let self2 :=
    if bool_decide (row + 1 < height self1)%nat
    then add_set self1 current_region (item (region_image self1) (row + 1) col)
    else self1 in
  let self3 :=
    if bool_decide ((col + 1 < width self2)%nat ∧ (row + 1 < height self2)%nat)
    then add_set self2 current_region
           (item (region_image self2) (row + 1) (col + 1))
    else self2 in
  if bool_decide ((col + 1 < width self3)%nat ∧ (0 < row)%nat)
  then add_set self3 current_region
         (item (region_image self3) (row - 1) (col + 1))
  else self3.

(** [for col in range(self.width)] at a fixed row. *)
Definition scan_row (self : simularity_set) (row : nat) : simularity_set :=
  foldl (λ acc col, visit_pixel acc row col) self (seq 0 (width self)).

(** [for row in range(self.height)] *)
Definition find_neighboring_regions (self : simularity_set) : simularity_set :=
  foldl scan_row self (seq 0 (height self)).

(** [for region in self.region_set: self.bounding_box[region] = ...], over
    the regions in the order [regions]. *)
Fixpoint cache_bounding_boxes (self : simularity_set) (regions : list Z)
  : result simularity_set :=
  match regions with
  | [] => Ok self
  | r :: rest =>
      box ← create_bounding_box self r;
      cache_bounding_boxes
        (with_bounding_boxes self (<[ r := box ]> (bounding_boxes self))) rest
  end.

(** [simularity_set(region_image, image, disjoint_set)] *)
Definition simularity_set_init (region_image : ndarray) (image : color_image)
  (disjoint_set : disjoint_set_t) : result simularity_set :=
  let '(h, w) := shape region_image in
  let self0 :=
    Build_simularity_set region_image ∅ ∅ image disjoint_set h w
      (Z.of_nat h * Z.of_nat w) ∅ in
  let self1 := find_neighboring_regions self0 in
  cache_bounding_boxes self1 (elements (region_set self1)).

(** *** Binary64 arithmetic *)

(** Round to the nearest integer, ties to the even one. *)
Definition rne (x : Q) : Z :=
  let f := Qfloor x in
  match (x - inject_Z f ?= 1 # 2)%Q with
  | Lt => f
  | Gt => f + 1
  | Eq => if Z.even f then f else f + 1
  end.

(** The integer k with 2^k <= x < 2^(k+1), for a positive x. *)
Definition ilog2 (x : Q) : Z :=
  let k := Z.log2 (Qnum x) - Z.log2 (Z.pos (Qden x)) in
  if Qle_bool (2 ^ k) x then k else k - 1.

(** The exponent of the last mantissa bit of the double nearest to a
    positive x: 53 bits of mantissa, and no exponent below -1074 (the
    subnormal range). *)
Definition exponent64 (x : Q) : Z := Z.max (ilog2 x - 52) (-1074).

(** A positive x rounded to 53 bits, ties to even, exponent unbounded
    above. *)
Definition round_pos (x : Q) : Q :=
  (inject_Z (rne (x / 2 ^ exponent64 x)) * 2 ^ exponent64 x)%Q.

Definition round_to_double (x : Q) : Q :=
  match Qnum x with
  | Z0 => 0%Q
  | Zpos _ => round_pos x
  | Zneg _ => (- round_pos (- x))%Q
  end.

(** The binary64 value nearest to x, in lowest terms; [None] when the
    rounded magnitude reaches 2^1024 (overflow). *)
Definition round64 (x : Q) : option Q :=
  let v := round_to_double x in
  if Qle_bool (2 ^ 1024) (Qabs v) then None else Some (Qred v).

(** The largest finite double, 2^1024 - 2^971. *)
Definition max_double : Q := (2 ^ 1024 - 2 ^ 971)%Q.

(** The same quotient by the Standard Library's specification of IEEE 754
    division, at precision 53 and maximal exponent 1024, as a rational;
    [None] for an infinity or a NaN. *)
Definition spec_float_of_Z (z : Z) : SpecFloat.spec_float :=
  match z with
  | Z0 => SpecFloat.S754_zero false
  | Zpos p => SpecFloat.S754_finite false p 0
  | Zneg p => SpecFloat.S754_finite true p 0
  end.

Definition spec_float_value (f : SpecFloat.spec_float) : option Q :=
  match f with
  | SpecFloat.S754_zero _ => Some 0%Q
  | SpecFloat.S754_finite s m e =>
      Some (Qred ((if s then -1 else 1)%Q * inject_Z (Z.pos m) * 2 ^ e))
  | _ => None
  end.

Definition ieee_div (n d : Z) : option Q :=
  spec_float_value
    (SpecFloat.SFdiv 53 1024 (spec_float_of_Z n) (spec_float_of_Z d)).

(** A Python float. *)
Inductive float : Type :=
| Finite (value : Q)
| Infinity (negative : bool)
| NaN.

(** [x - y] on floats: the exact difference rounded, an infinity on
    overflow. *)
Definition float_sub (x y : float) : float :=
  match x, y with
  | Finite a, Finite b =>
      match round64 (a - b) with
      | Some v => Finite v
      | None => Infinity (negb (Qle_bool 0 (a - b)))
      end
  | Finite _, Infinity s => Infinity (negb s)
  | Infinity s, Finite _ => Infinity s
  | Infinity s, Infinity t => if Bool.eqb s t then NaN else Infinity s
  | NaN, _ | _, NaN => NaN
  end.

(** [float(n)] for an integer that a double holds exactly, as the 1 of
    [1 - q]. *)
Definition float_of_small_int (n : Z) : float := Finite (inject_Z n).

(** The exact quotient of two integers. *)
Definition exact_div (n d : Z) : Q := (inject_Z n / inject_Z d)%Q.

(** [n / d] on integers in Python 3: the exact quotient, correctly
    rounded. *)
Definition true_div (n d : Z) : result float :=
  if bool_decide (d = 0) then Raise ZeroDivisionError
  else
    match round64 (exact_div n d) with
    | Some v => Ok (Finite v)
    | None => Raise OverflowError
    end.

(** *** Similarity by size and by fill *)

(** [s_size] *)
Definition s_size (self : simularity_set) (region_a region_b : Z)
  : result float :=
  let a := find (disjoint_set self) region_a in
  let b := find (disjoint_set self) region_b in
  q ← true_div (size_of a + size_of b) (image_size self);
  Ok (float_sub (float_of_small_int 1) q).

(** [s_fill] *)
Definition s_fill (self : simularity_set) (region_a region_b : Z)
  : result float :=
  let a := find (disjoint_set self) region_a in
  let b := find (disjoint_set self) region_b in
  bbox_a ← create_bounding_box self (node_label a);
  bbox_b ← create_bounding_box self (node_label b);
  let bbox_ab := combine_bounding_boxes_m self bbox_a bbox_b in
  area ← len bbox_ab;
  q ← true_div (area - size_of a - size_of b) (image_size self);
  Ok (float_sub (float_of_small_int 1) q).

(** The fill similarity in the words of the specification:
    1 - (area(box(a) ∪ box(b)) - size(a) - size(b)) / total, with the
    specification's union and area = height * width, evaluated in floats as
    [s_fill] evaluates its own expression. *)
Definition spec_s_fill (self : simularity_set) (region_a region_b : Z)
  : result float :=
  let a := find (disjoint_set self) region_a in
  let b := find (disjoint_set self) region_b in
  bbox_a ← create_bounding_box self (node_label a);
  bbox_b ← create_bounding_box self (node_label b);
  let bbox_ab := spec_union bbox_a bbox_b in
  q ← true_div (bb_height bbox_ab * bb_width bbox_ab - size_of a - size_of b)
        (image_size self);
  Ok (float_sub (float_of_small_int 1) q).

(** *** Similarity by colour *)

Inductive adaptive_method : Type :=
| ADAPTIVE_THRESH_MEAN_C
| ADAPTIVE_THRESH_GAUSSIAN_C.

Inductive threshold_type : Type :=
| THRESH_BINARY
| THRESH_BINARY_INV.

(** The part of [cv2] the class calls. *)
Record cv2_t : Type := Build_cv2 {
  adaptiveThreshold :
    ndarray → Z → adaptive_method → threshold_type → Z → Z → result ndarray
}.

(** The module [histogram_utils], which is not part of the source: its two
    functions are taken as they are called. *)
Record histogram_utils_t : Type := Build_histogram_utils {
  histogram : Type;
  score : Type;
  get_normalized_histogram :
    color_image → list Z → list Z → list Z → ndarray → result histogram;
  compare_histograms : histogram → histogram → string → result score
}.

(** [np.array((self.region_image == region).astype(int) * 255, np.uint8)] *)
Definition region_indicator (self : simularity_set) (region : Z) : ndarray :=
  (λ row,
     (λ col,
        (if bool_decide (item (region_image self) row col = region)
         then 1 else 0) * 255)
     <$> seq 0 (width self))
  <$> seq 0 (height self).

(** [get_region_mask] *)
Definition get_region_mask (cv2 : cv2_t) (self : simularity_set) (region : Z)
  : result ndarray :=
  let mask_im := region_indicator self region in
  adaptiveThreshold cv2 mask_im 255 ADAPTIVE_THRESH_MEAN_C THRESH_BINARY 3 0.

(** [calculate_color_hist_of_region] *)
Definition calculate_color_hist_of_region (cv2 : cv2_t) (hu : histogram_utils_t)
  (self : simularity_set) (region : Z) (bins ranges : list Z)
  : result (histogram hu) :=
  mask ← get_region_mask cv2 self region;
  let channels := [0; 1; 2] in
  get_normalized_histogram hu (image self) channels bins ranges mask.

(** [s_color]; [method_name] defaults to ["intersection"] in the source. *)
Definition s_color (cv2 : cv2_t) (hu : histogram_utils_t)
  (self : simularity_set) (region_a region_b : Z) (method_name : string)
  : result (score hu) :=
  let a := find (disjoint_set self) region_a in
  let b := find (disjoint_set self) region_b in
  let bins := [0; 1; 2] in
  let ranges := [0; 256; 0; 256; 0; 256] in
  hist_a ← calculate_color_hist_of_region cv2 hu self (node_label a) bins ranges;
  hist_b ← calculate_color_hist_of_region cv2 hu self (node_label b) bins ranges;
  compare_histograms hu hist_a hist_b method_name.

(** ** Vocabulary of the properties *)

(** A pixel position lies inside an [h] x [w] image. *)
Definition in_bounds (h w : nat) (p : nat * nat) : Prop :=
  (p.1 < h)%nat ∧ (p.2 < w)%nat.

(** Two distinct positions that differ by at most one row and one column. *)
Definition adjacent8 (p q : nat * nat) : Prop :=
  p ≠ q ∧
  (p.1 ≤ q.1 + 1)%nat ∧ (q.1 ≤ p.1 + 1)%nat ∧
  (p.2 ≤ q.2 + 1)%nat ∧ (q.2 ≤ p.2 + 1)%nat.

(** Some pixel labelled [a] is 8-adjacent to some pixel labelled [b]. *)
Definition regions_touch (img : ndarray) (a b : Z) : Prop :=
  ∃ p q : nat * nat,
    in_bounds (shape img).1 (shape img).2 p ∧
    in_bounds (shape img).1 (shape img).2 q ∧
    adjacent8 p q ∧
    item img p.1 p.2 = a ∧ item img q.1 q.2 = b.

(** The label occurs somewhere in the image the object scans. *)
Definition occurs (self : simularity_set) (l : Z) : Prop :=
  ∃ row col : nat,
    (row < height self)%nat ∧ (col < width self)%nat ∧
    item (region_image self) row col = l.

(** The unordered pair {a, b} is recorded, in one order or the other. *)
Definition recorded (self : simularity_set) (a b : Z) : Prop :=
  (a, b) ∈ sim_set self ∨ (b, a) ∈ sim_set self.

(** region ∈ live regions ⇔ some pair of the adjacency set contains it. *)
Definition live_invariant (self : simularity_set) : Prop :=
  ∀ r : Z, r ∈ region_set self ↔
           ∃ p, p ∈ sim_set self ∧ tuple_contains r p.

(** Stored pairs join distinct labels, and never in both orders. *)
Definition one_order (self : simularity_set) : Prop :=
  ∀ a b, (a, b) ∈ sim_set self → a ≠ b ∧ (b, a) ∉ sim_set self.

(** The labels that take part in at least one pair. *)
Definition pair_labels (s : gset (Z * Z)) : gset Z :=
  set_map fst s ∪ set_map snd s.

(** The objects a caller can hold: a constructed one, and what [add_set] and
    [remove_set] (however it ends) leave behind. *)
Inductive reachable : simularity_set → Prop :=
| reachable_init region_image image disjoint_set self :
    simularity_set_init region_image image disjoint_set = Ok self →
    reachable self
| reachable_add_set self a b :
    reachable self → reachable (add_set self a b)
| reachable_remove_set self s :
    reachable self → reachable (remove_set self s).1.

(** *** The scan of [__init__] as a list of label pairs *)

(** The neighbours [visit_pixel] looks at from (row, col), in its order. *)
Definition forward_neighbours (h w row col : nat) : list (nat * nat) :=
  (if bool_decide (col + 1 < w)%nat then [(row, col + 1)%nat] else []) ++
  (if bool_decide (row + 1 < h)%nat then [(row + 1, col)%nat] else []) ++
  (if bool_decide ((col + 1 < w)%nat ∧ (row + 1 < h)%nat)
   then [(row + 1, col + 1)%nat] else []) ++
  (if bool_decide ((col + 1 < w)%nat ∧ (0 < row)%nat)
   then [(row - 1, col + 1)%nat] else []).

Definition pixel_edges (img : ndarray) (h w row col : nat) : list (Z * Z) :=
  (λ q, (item img row col, item img q.1 q.2)) <$> forward_neighbours h w row col.

Definition row_edges (img : ndarray) (h w row : nat) : list (Z * Z) :=
  col ← seq 0 w; pixel_edges img h w row col.

Definition image_edges (img : ndarray) (h w : nat) : list (Z * Z) :=
  row ← seq 0 h; row_edges img h w row.

Definition add_edges (self : simularity_set) (edges : list (Z * Z))
  : simularity_set :=
  foldl (λ acc e, add_set acc e.1 e.2) self edges.

(** The pair set after [remove_set]: the pair and its reverse are gone,
    whether or not they were there. *)
Definition without_pair (self : simularity_set) (s : Z * Z) : simularity_set :=
  with_sim_set self (sim_set self ∖ {[ s ]} ∖ {[ (s.2, s.1) ]}).

(** What [__init__] and the updates leave untouched. *)
Definition same_frame (self self' : simularity_set) : Prop :=
  region_image self' = region_image self ∧
  image self' = image self ∧
  disjoint_set self' = disjoint_set self ∧
  height self' = height self ∧
  width self' = width self ∧
  image_size self' = image_size self.

(** ** Concrete inputs *)

(** The label image of the module's own smoke test. *)
Definition test_region_image : ndarray := [[1; 2; 3]; [4; 5; 6]; [4; 4; 6]].

(** A 3 x 3 colour image, all black. *)
Definition black_3x3 : color_image := replicate 3 (replicate 3 [0; 0; 0]).

(** A 2 x 2 colour image. *)
Definition black_2x2 : color_image := replicate 2 (replicate 2 [0; 0; 0]).

(** A union-find in which nothing was merged and every region has one pixel. *)
Definition singletons : disjoint_set_t :=
  Build_disjoint_set (λ l, Build_node l 1).

(** Two regions of 2 and 4 pixels, side by side. *)
Definition two_blocks : ndarray := [[1; 2; 2]; [1; 2; 2]].

(** A union-find whose regions have sizes 2^52, but for region 3 with
    2^52 + 1. *)
Definition huge_sizes : disjoint_set_t :=
  Build_disjoint_set
    (λ l, Build_node l (if bool_decide (l = 3) then 2 ^ 52 + 1 else 2 ^ 52)).

Definition two_blocks_sizes : disjoint_set_t :=
  Build_disjoint_set (λ l, Build_node l (if bool_decide (l = 1) then 2 else 4)).

(** The object an [h] x [w] label image starts from, before the scan. *)
Definition fresh (region_image : ndarray) (image : color_image)
  (disjoint_set : disjoint_set_t) : simularity_set :=
  Build_simularity_set region_image ∅ ∅ image disjoint_set
    (shape region_image).1 (shape region_image).2
    (Z.of_nat (shape region_image).1 * Z.of_nat (shape region_image).2) ∅.

(** The constructed object, when construction returns. *)
Definition constructed (region_image : ndarray) (image : color_image)
  (disjoint_set : disjoint_set_t) : simularity_set :=
  match simularity_set_init region_image image disjoint_set with
  | Ok self => self
  | Raise _ => fresh region_image image disjoint_set
  end.

(** A run of [remove_set] calls, one after the other, up to the first that
    raises: the three calls of the module's smoke test. *)
Fixpoint remove_sets (self : simularity_set) (l : list (Z * Z))
  : simularity_set * result unit :=
  match l with
  | [] => (self, Ok ())
  | s :: rest =>
      match remove_set self s with
      | (self', Ok _) => remove_sets self' rest
      | (self', Raise e) => (self', Raise e)
      end
  end.

(** Two regions of one pixel each. *)
Definition one_by_two : ndarray := [[1; 2]].

(** A 2 x 3 colour image. *)
Definition black_2x3 : color_image := replicate 2 (replicate 3 [0; 0; 0]).

(** The histogram utility restricted to the parameters [s_color] fixes: any
    other channels, bins or ranges are refused. *)
Definition fixed_parameters_only (hu : histogram_utils_t) : histogram_utils_t :=
  Build_histogram_utils (histogram hu) (score hu)
    (λ im channels bins ranges mask,
       if bool_decide (channels = [0; 1; 2] ∧ bins = [0; 1; 2] ∧
                       ranges = [0; 256; 0; 256; 0; 256])
       then get_normalized_histogram hu im channels bins ranges mask
       else Raise (ExternalError "unexpected histogram parameters"))
    (compare_histograms hu).

Definition box_a_example : bounding_box := Build_bounding_box (Label 1) 0 5 1 1.
Definition box_b_example : bounding_box := Build_bounding_box (Label 2) 0 5 1 3.

(** ** Vocabulary of the further properties *)

(** (row, col) is a pixel of the image the object scans, labelled [l]. *)
Definition pixel_of (self : simularity_set) (l : Z) (row col : nat) : Prop :=
  (row < height self)%nat ∧ (col < width self)%nat ∧
  item (region_image self) row col = l.

(** Some pixel of the label image carries the label. *)
Definition has_label (img : ndarray) (l : Z) : Prop :=
  ∃ p : nat * nat,
    in_bounds (shape img).1 (shape img).2 p ∧ item img p.1 p.2 = l.

(** A cached box is the box [create_bounding_box] computes on demand. *)
Definition cache_consistent (self : simularity_set) : Prop :=
  ∀ r box, bounding_boxes self !! r = Some box →
           create_bounding_box self r = Ok box.

(** A 2 x 2 image of a single label. *)
Definition uniform_2x2 : ndarray := [[7; 7]; [7; 7]].

(** An image without rows. *)
Definition no_rows : ndarray := [].

(** * Properties *)

(** ** Bounding boxes *)

Lemma combine_row_start box_a box_b :
  row_start (combine_bounding_boxes box_a box_b)
  = Z.min (row_start box_a) (row_start box_b).
Proof. reflexivity. Qed.

Lemma combine_col_start box_a box_b :
  col_start (combine_bounding_boxes box_a box_b)
  = Z.min (col_start box_a) (col_start box_b).
Proof. reflexivity. Qed.

Lemma combine_height box_a box_b :
  bb_height (combine_bounding_boxes box_a box_b)
  = Z.max (row_start box_a + bb_height box_a)
          (row_start box_b + bb_height box_b)
    - Z.min (row_start box_a) (row_start box_b).
Proof. reflexivity. Qed.

(** The width is where the source departs from the union: the right edge of
    the second box is taken from its [row_start]. *)
Lemma combine_width box_a box_b :
  bb_width (combine_bounding_boxes box_a box_b)
  = Z.max (col_start box_a + bb_width box_a)
          (row_start box_b + bb_width box_b)
    - Z.min (col_start box_a) (col_start box_b).
Proof. reflexivity. Qed.

(** The combined box always covers the first box, and the second one on the
    row axis. *)
Lemma combine_contains_first box_a box_b :
  contains_box (combine_bounding_boxes box_a box_b) box_a.
Proof. unfold contains_box; cbn; lia. Qed.

Lemma combine_rows_cover_second box_a box_b :
  row_start (combine_bounding_boxes box_a box_b) ≤ row_start box_b ∧
  row_start box_b + bb_height box_b
  ≤ row_start (combine_bounding_boxes box_a box_b)
    + bb_height (combine_bounding_boxes box_a box_b).
Proof. cbn; lia. Qed.

(** Boxes with non-negative extents combine to one with non-negative
    extents, so [len] of it never raises. *)
Lemma combine_well_formed box_a box_b :
  well_formed_box box_a → well_formed_box box_b →
  well_formed_box (combine_bounding_boxes box_a box_b).
Proof. unfold well_formed_box; cbn; lia. Qed.

(** When the second box starts on the diagonal ([row_start = col_start]) the
    source computes the union of the specification. *)
Lemma combine_is_union_on_diagonal box_a box_b :
  row_start box_b = col_start box_b →
  combine_bounding_boxes box_a box_b = spec_union box_a box_b.
Proof. intros E. unfold combine_bounding_boxes, spec_union. by rewrite E. Qed.

(** The union of the specification has the properties the claim lists. *)
Lemma spec_union_contains box_a box_b :
  contains_box (spec_union box_a box_b) box_a ∧
  contains_box (spec_union box_a box_b) box_b.
Proof. unfold contains_box; cbn; lia. Qed.

Lemma spec_union_area box_a box_b :
  well_formed_box box_a → well_formed_box box_b →
  bounding_box_len box_a ≤ bounding_box_len (spec_union box_a box_b) ∧
  bounding_box_len box_b ≤ bounding_box_len (spec_union box_a box_b).
Proof.
  unfold well_formed_box, bounding_box_len; cbn.
  intros [Ha Hb] [Hc Hd]; split; apply Z.mul_le_mono_nonneg; lia.
Qed.

(** C1 (code defect): at the boxes a = (row 0, col 5, height 1, width 1) and
    b = (row 0, col 5, height 1, width 3), [combine_bounding_boxes] returns
    the box (row 0, col 5, height 1, width 1): its width is not the maximum
    of origin + extent minus the new origin (that would be 3), it does not
    contain b, and its area 1 is smaller than the area 3 of b. *)
Theorem C1_combine_bounding_boxes_misses_second_box :
  combine_bounding_boxes box_a_example box_b_example
  = Build_bounding_box (Tuple (Label 1) (Label 2)) 0 5 1 1 ∧
  spec_union box_a_example box_b_example
  = Build_bounding_box (Tuple (Label 1) (Label 2)) 0 5 1 3 ∧
  well_formed_box box_a_example ∧ well_formed_box box_b_example ∧
  ¬ contains_box (combine_bounding_boxes box_a_example box_b_example)
      box_b_example ∧
  bounding_box_len (combine_bounding_boxes box_a_example box_b_example)
  < bounding_box_len box_b_example.
Proof.
  repeat split; try (cbn; lia).
  unfold contains_box; cbn; lia.
Qed.

(** ** The pair set and the region set *)

#[local] Instance same_frame_refl : Reflexive same_frame.
Proof. by intros self. Qed.

Lemma same_frame_trans self1 self2 self3 :
  same_frame self1 self2 → same_frame self2 self3 → same_frame self1 self3.
Proof. unfold same_frame. intros (?&?&?&?&?&?) (?&?&?&?&?&?). repeat split; congruence. Qed.

Lemma add_set_frame self a b : same_frame self (add_set self a b).
Proof. unfold add_set. repeat case_bool_decide; done. Qed.

Lemma add_set_bounding_boxes self a b :
  bounding_boxes (add_set self a b) = bounding_boxes self.
Proof. unfold add_set. repeat case_bool_decide; done. Qed.

Lemma elem_of_sim_set_add_set self a b p :
  p ∈ sim_set (add_set self a b) ↔
  p ∈ sim_set self ∨ (a ≠ b ∧ ((b, a) ∉ sim_set self) ∧ p = (a, b)).
Proof.
  unfold add_set. repeat case_bool_decide; cbn;
    rewrite ?elem_of_union, ?elem_of_singleton; naive_solver.
Qed.

Lemma elem_of_region_set_add_set self a b r :
  r ∈ region_set (add_set self a b) ↔
  r ∈ region_set self ∨ (a ≠ b ∧ (r = a ∨ r = b)).
Proof.
  unfold add_set. repeat case_bool_decide; cbn;
    rewrite ?elem_of_union, ?elem_of_singleton; naive_solver.
Qed.

Lemma add_set_same self a : add_set self a a = self.
Proof. unfold add_set. by rewrite bool_decide_eq_false_2 by auto. Qed.

Lemma recorded_add_set self a b x y :
  recorded (add_set self a b) x y ↔
  recorded self x y ∨ (a ≠ b ∧ ((x, y) = (a, b) ∨ (x, y) = (b, a))).
Proof.
  unfold recorded. rewrite !elem_of_sim_set_add_set.
  destruct (decide ((b, a) ∈ sim_set self)); split; intros H;
    repeat match goal with
    | H : _ ∨ _ |- _ => destruct H
    | H : _ ∧ _ |- _ => destruct H
    end; simplify_eq; auto 10.
Qed.

Lemma add_set_one_order self a b :
  one_order self → one_order (add_set self a b).
Proof.
  intros Hinv x y. rewrite !elem_of_sim_set_add_set.
  intros [Hin|(Hne & Hrev & Heq)].
  - destruct (Hinv _ _ Hin) as [Hxy Hyx]. split; [done|].
    intros [?|(? & ? & ?)]; simplify_eq; done.
  - simplify_eq. split; [done|].
    intros [?|(? & ? & ?)]; simplify_eq; done.
Qed.

Lemma add_set_live_invariant self a b :
  live_invariant self → live_invariant (add_set self a b).
Proof.
  intros Hinv r. rewrite elem_of_region_set_add_set. split.
  - intros [Hr|(Hne & Hr)].
    + apply Hinv in Hr as (p & Hp & Hc). exists p. split; [|done].
      apply elem_of_sim_set_add_set. by left.
    + destruct (decide ((b, a) ∈ sim_set self)) as [Hin|Hnin].
      * exists (b, a). split; [apply elem_of_sim_set_add_set; by left|].
        unfold tuple_contains; cbn. tauto.
      * exists (a, b). split; [apply elem_of_sim_set_add_set; by right|].
        unfold tuple_contains; cbn. tauto.
  - intros (p & Hp & Hc). apply elem_of_sim_set_add_set in Hp as [Hp|(Hne & _ & ->)].
    + left. apply Hinv. eauto.
    + right. split; [done|]. exact Hc.
Qed.

(** *** Adding a list of pairs *)

Lemma add_edges_app self l1 l2 :
  add_edges self (l1 ++ l2) = add_edges (add_edges self l1) l2.
Proof. apply foldl_app. Qed.

Lemma add_edges_frame self l : same_frame self (add_edges self l).
Proof.
  revert self. induction l as [|e l IH]; intros self; [done|].
  cbn. eapply same_frame_trans; [apply add_set_frame|apply IH].
Qed.

Lemma add_edges_bounding_boxes self l :
  bounding_boxes (add_edges self l) = bounding_boxes self.
Proof.
  revert self. induction l as [|e l IH]; intros self; [done|].
  cbn. fold (add_edges (add_set self e.1 e.2) l).
  by rewrite IH, add_set_bounding_boxes.
Qed.

Lemma add_edges_one_order self l :
  one_order self → one_order (add_edges self l).
Proof.
  revert self. induction l as [|e l IH]; intros self H; [done|].
  apply IH, add_set_one_order, H.
Qed.

Lemma add_edges_live_invariant self l :
  live_invariant self → live_invariant (add_edges self l).
Proof.
  revert self. induction l as [|e l IH]; intros self H; [done|].
  apply IH, add_set_live_invariant, H.
Qed.

Lemma recorded_add_edges self l x y :
  recorded (add_edges self l) x y ↔
  recorded self x y ∨ (x ≠ y ∧ ((x, y) ∈ l ∨ (y, x) ∈ l)).
Proof.
  revert self. induction l as [|[a b] l IH]; intros self.
  - cbn. split; [auto|]. intros [?|(_ & [H|H])]; [done|by inversion H..].
  - cbn. fold (add_edges (add_set self a b) l).
    rewrite IH, recorded_add_set, !elem_of_cons. split.
    + intros [[?|(Hne & [?|?])]|(? & [?|?])]; simplify_eq; auto 10.
    + intros [?|(Hne & [[?|?]|[?|?]])]; simplify_eq; auto 10.
Qed.

Lemma elem_of_region_set_add_edges self l r :
  r ∈ region_set (add_edges self l) ↔
  r ∈ region_set self ∨ ∃ e, e ∈ l ∧ e.1 ≠ e.2 ∧ (r = e.1 ∨ r = e.2).
Proof.
  revert self. induction l as [|[a b] l IH]; intros self.
  - cbn. split; [auto|]. intros [?|(e & H & _)]; [done|by inversion H].
  - cbn. fold (add_edges (add_set self a b) l).
    rewrite IH, elem_of_region_set_add_set. split.
    + intros [[?|(Hne & ?)]|(e & ? & ? & ?)]; [by left|right..].
      * exists (a, b). split; [left|done].
      * exists e. split; [by right|done].
    + intros [?|(e & [->|?]%elem_of_cons & ? & ?)]; [auto|auto|].
      right. by exists e.
Qed.

(** *** The scan of [__init__] adds the pairs of [image_edges] *)

Lemma add_set_if self (P : Prop) `{!Decision P} a b :
  (if bool_decide P then add_set self a b else self)
  = add_edges self (if bool_decide P then [(a, b)] else []).
Proof. by case_bool_decide. Qed.

Lemma visit_pixel_edges self row col :
  visit_pixel self row col
  = add_edges self
      (pixel_edges (region_image self) (height self) (width self) row col).
Proof.
  unfold visit_pixel. cbv zeta.
  rewrite (add_set_if self).
  match goal with |- context [add_edges self ?l] => set (l1 := l) end.
  destruct (add_edges_frame self l1) as (E1 & _ & _ & E2 & E3 & _).
  rewrite ?E1, ?E2, ?E3.
  rewrite (add_set_if (add_edges self l1)).
  match goal with |- context [add_edges (add_edges self l1) ?l] => set (l2 := l) end.
  destruct (add_edges_frame (add_edges self l1) l2) as (F1 & _ & _ & F2 & F3 & _).
  rewrite ?F1, ?F2, ?F3, ?E1, ?E2, ?E3.
  rewrite (add_set_if (add_edges (add_edges self l1) l2)).
  match goal with
  | |- context [add_edges (add_edges (add_edges self l1) l2) ?l] => set (l3 := l)
  end.
  destruct (add_edges_frame (add_edges (add_edges self l1) l2) l3)
    as (G1 & _ & _ & G2 & G3 & _).
  rewrite ?G1, ?G2, ?G3, ?F1, ?F2, ?F3, ?E1, ?E2, ?E3.
  rewrite (add_set_if (add_edges (add_edges (add_edges self l1) l2) l3)).
  rewrite <- !add_edges_app. f_equal.
  unfold pixel_edges, forward_neighbours, l1, l2, l3.
  rewrite !fmap_app. repeat case_bool_decide; reflexivity.
Qed.

Lemma foldl_add_edges {X : Type} (f : simularity_set → X → simularity_set)
    (g : X → list (Z * Z)) self0 :
  (∀ acc x, same_frame self0 acc → f acc x = add_edges acc (g x)) →
  ∀ l acc, same_frame self0 acc → foldl f acc l = add_edges acc (l ≫= g).
Proof.
  intros Hf l. induction l as [|x l IH]; intros acc Hacc; [done|].
  cbn. rewrite add_edges_app, <- Hf by done.
  apply IH. rewrite Hf by done.
  eapply same_frame_trans; [exact Hacc|apply add_edges_frame].
Qed.

Lemma scan_row_edges self row :
  scan_row self row
  = add_edges self
      (row_edges (region_image self) (height self) (width self) row).
Proof.
  unfold scan_row, row_edges.
  apply (foldl_add_edges _ _ self); [|done].
  intros acc col (E1 & _ & _ & E2 & E3 & _).
  by rewrite visit_pixel_edges, E1, E2, E3.
Qed.

Lemma find_neighboring_regions_edges self :
  find_neighboring_regions self
  = add_edges self
      (image_edges (region_image self) (height self) (width self)).
Proof.
  unfold find_neighboring_regions, image_edges.
  apply (foldl_add_edges _ _ self); [|done].
  intros acc row (E1 & _ & _ & E2 & E3 & _).
  by rewrite scan_row_edges, E1, E2, E3.
Qed.

Lemma elem_of_forward_neighbours h w row col q :
  q ∈ forward_neighbours h w row col ↔
  (q.1 = row ∧ q.2 = col + 1 ∧ col + 1 < w)%nat ∨
  (q.1 = row + 1 ∧ q.2 = col ∧ row + 1 < h)%nat ∨
  (q.1 = row + 1 ∧ q.2 = col + 1 ∧ col + 1 < w ∧ row + 1 < h)%nat ∨
  (q.1 = row - 1 ∧ q.2 = col + 1 ∧ col + 1 < w ∧ 0 < row)%nat.
Proof.
  destruct q as [r c]. unfold forward_neighbours.
  rewrite !elem_of_app. cbn.
  repeat case_bool_decide;
    rewrite ?elem_of_nil, ?list_elem_of_singleton, ?pair_eq; lia.
Qed.

Lemma forward_neighbours_in_bounds h w row col q :
  (row < h)%nat → (col < w)%nat →
  q ∈ forward_neighbours h w row col → in_bounds h w q.
Proof.
  intros Hr Hc Hq%elem_of_forward_neighbours. unfold in_bounds. lia.
Qed.

Lemma elem_of_image_edges img h w x y :
  (x, y) ∈ image_edges img h w ↔
  ∃ p q, in_bounds h w p ∧ q ∈ forward_neighbours h w p.1 p.2 ∧
         x = item img p.1 p.2 ∧ y = item img q.1 q.2.
Proof.
  unfold image_edges, row_edges, pixel_edges, in_bounds. split.
  - intros (row & (col & (q & Heq & Hq)%list_elem_of_fmap & Hc%elem_of_seq)
               %list_elem_of_bind & Hr%elem_of_seq)%list_elem_of_bind.
    simplify_eq. exists (row, col), q. cbn. repeat split; [lia..|done].
  - intros ([row col] & q & [Hr Hc] & Hq & -> & ->). cbn in *.
    apply list_elem_of_bind. exists row. split; [|apply elem_of_seq; lia].
    apply list_elem_of_bind. exists col. split; [|apply elem_of_seq; lia].
    apply list_elem_of_fmap. by exists q.
Qed.

Lemma adjacent8_forward h w p q :
  in_bounds h w p → in_bounds h w q →
  adjacent8 p q ↔
  q ∈ forward_neighbours h w p.1 p.2 ∨ p ∈ forward_neighbours h w q.1 q.2.
Proof.
  destruct p as [r c], q as [r' c']. unfold in_bounds, adjacent8.
  rewrite !elem_of_forward_neighbours, pair_eq. cbn [fst snd].
  intros [Hr Hc] [Hr' Hc']. split.
  - intros (Hne & ? & ? & ? & ?).
    assert (r' = r ∨ r' = r + 1 ∨ r = r' + 1)%nat as Hrow by lia.
    assert (c' = c ∨ c' = c + 1 ∨ c = c' + 1)%nat as Hcol by lia.
    destruct Hrow as [-> | [-> | ->]], Hcol as [-> | [-> | ->]].
    + by destruct Hne.
    + left; left; lia.
    + right; left; lia.
    + left; right; left; lia.
    + left; right; right; left; lia.
    + right; right; right; right; lia.
    + right; right; left; lia.
    + left; right; right; right; lia.
    + right; right; right; left; lia.
  - intros [H|H]; decompose [and or] H; subst; repeat split; lia.
Qed.

(** ** Pixel coordinates and bounding boxes of a region *)

Lemma elem_of_get_indices_of_region self l (x y : Z) :
  (x, y) ∈ get_indices_of_region self l ↔
  ∃ row col : nat,
    x = Z.of_nat row ∧ y = Z.of_nat col ∧
    (row < height self)%nat ∧ (col < width self)%nat ∧
    item (region_image self) row col = l.
Proof.
  unfold get_indices_of_region. rewrite list_elem_of_bind. split.
  - intros (row & (col & Hin & Hc%elem_of_seq)%list_elem_of_bind & Hr%elem_of_seq).
    case_bool_decide; [|by apply elem_of_nil in Hin].
    apply list_elem_of_singleton in Hin. simplify_eq.
    exists row, col. repeat split; lia || done.
  - intros (row & col & -> & -> & Hr & Hc & Hl).
    exists row. split; [|apply elem_of_seq; lia].
    apply list_elem_of_bind. exists col. split; [|apply elem_of_seq; lia].
    rewrite bool_decide_eq_true_2 by done. apply list_elem_of_singleton. done.
Qed.

Lemma get_indices_of_region_absent self l :
  ¬ occurs self l → get_indices_of_region self l = [].
Proof.
  intros Habs. destruct (get_indices_of_region self l) as [|[x y] rest] eqn:E; [done|].
  destruct Habs.
  assert ((x, y) ∈ get_indices_of_region self l) as Hin by (rewrite E; left).
  apply elem_of_get_indices_of_region in Hin as (row & col & _ & _ & ? & ? & ?).
  by exists row, col.
Qed.

Lemma get_indices_of_region_occurs self l :
  occurs self l → get_indices_of_region self l ≠ [].
Proof.
  intros (row & col & Hr & Hc & Hl) E.
  assert ((Z.of_nat row, Z.of_nat col) ∈ get_indices_of_region self l) as Hin.
  { apply elem_of_get_indices_of_region. by exists row, col. }
  rewrite E in Hin. by apply elem_of_nil in Hin.
Qed.

Lemma foldl_min_le x l : foldl Z.min x l ≤ x.
Proof.
  revert x. induction l as [|y l IH]; intros x; cbn; [lia|].
  etrans; [apply IH|lia].
Qed.

Lemma foldl_max_ge x l : x ≤ foldl Z.max x l.
Proof.
  revert x. induction l as [|y l IH]; intros x; cbn; [lia|].
  etrans; [|apply IH]. lia.
Qed.

(** On a label that occurs, [create_bounding_box] returns a box tagged with
    the label, with non-negative extents. *)
Lemma create_bounding_box_occurs self l :
  occurs self l →
  ∃ box, create_bounding_box self l = Ok box ∧
         region box = Label l ∧ well_formed_box box.
Proof.
  intros Hocc%get_indices_of_region_occurs. unfold create_bounding_box.
  destruct (get_indices_of_region self l) as [|[x y] rest]; [done|].
  cbn. eexists. split; [reflexivity|]. split; [done|].
  unfold well_formed_box; cbn.
  pose proof (foldl_min_le x (rest.*1)). pose proof (foldl_max_ge x (rest.*1)).
  pose proof (foldl_min_le y (rest.*2)). pose proof (foldl_max_ge y (rest.*2)).
  lia.
Qed.

(** On a label that occurs nowhere, [min] of the empty column raises. *)
Lemma create_bounding_box_absent self l :
  ¬ occurs self l → create_bounding_box self l = Raise ValueError.
Proof.
  intros Habs. unfold create_bounding_box.
  by rewrite get_indices_of_region_absent.
Qed.

Lemma create_bounding_box_frame self self' l :
  same_frame self self' →
  create_bounding_box self' l = create_bounding_box self l.
Proof.
  intros (E1 & _ & _ & E2 & E3 & _).
  unfold create_bounding_box, get_indices_of_region. by rewrite E1, E2, E3.
Qed.

Lemma occurs_frame self self' l :
  same_frame self self' → occurs self l → occurs self' l.
Proof.
  intros (E1 & _ & _ & E2 & E3 & _). unfold occurs. by rewrite E1, E2, E3.
Qed.

(** The caching loop of [__init__] returns when every region it is given
    occurs in the image; it only fills the dict, with the box of each. *)
Lemma cache_bounding_boxes_returns self regions :
  (∀ r, r ∈ regions → occurs self r) →
  ∃ m, cache_bounding_boxes self regions = Ok (with_bounding_boxes self m) ∧
       (∀ r, r ∈ regions →
             ∃ box, create_bounding_box self r = Ok box ∧ m !! r = Some box) ∧
       (∀ r, r ∉ regions → m !! r = bounding_boxes self !! r).
Proof.
  revert self. induction regions as [|r rest IH]; intros self Hocc.
  - exists (bounding_boxes self). split; [by destruct self|].
    split; [by intros r ?%elem_of_nil|done].
  - destruct (create_bounding_box_occurs self r) as (box & Hbox & _);
      [apply Hocc; left|].
    cbn. rewrite Hbox. cbn.
    set (self' := with_bounding_boxes self (<[r:=box]> (bounding_boxes self))).
    assert (same_frame self self') as Hfr by done.
    destruct (IH self') as (m & Hm & Hin & Hout).
    { intros r' Hr'. eapply occurs_frame; [done|]. apply Hocc. by right. }
    exists m. split; [exact Hm|]. split.
    + intros r' Hr'. destruct (decide (r' ∈ rest)) as [Hrest|Hrest].
      * destruct (Hin r' Hrest) as (box' & Hb & Hl). exists box'.
        split; [|done]. by rewrite <- (create_bounding_box_frame self self').
      * apply elem_of_cons in Hr' as [->|?]; [|done].
        exists box. split; [done|]. rewrite Hout by done.
        cbn. apply lookup_insert_eq.
    + intros r' Hr'. apply not_elem_of_cons in Hr' as [Hne Hrest].
      rewrite Hout by done. cbn. by apply lookup_insert_ne.
Qed.

(** ** Construction *)

Lemma fresh_live_invariant region_image image disjoint_set :
  live_invariant (fresh region_image image disjoint_set).
Proof.
  intros r. cbn. split; [by intros ?%not_elem_of_empty|].
  by intros (p & ?%not_elem_of_empty & _).
Qed.

Lemma fresh_one_order region_image image disjoint_set :
  one_order (fresh region_image image disjoint_set).
Proof. intros a b. cbn. by intros ?%not_elem_of_empty. Qed.

(** Every region the scan finds is the label of a pixel. *)
Lemma scanned_regions_occur self r :
  region_set self = ∅ →
  r ∈ region_set (find_neighboring_regions self) → occurs self r.
Proof.
  intros Hempty. rewrite find_neighboring_regions_edges.
  rewrite elem_of_region_set_add_edges, Hempty.
  intros [?%not_elem_of_empty|([x y] & Hin & _ & Hr)]; [done|].
  apply elem_of_image_edges in Hin as ([row col] & [row' col'] & [? ?] & Hq & -> & ->).
  cbn in *. destruct Hr as [->| ->].
  - by exists row, col.
  - apply forward_neighbours_in_bounds in Hq as [? ?]; [|done..].
    by exists row', col'.
Qed.

(** Construction always returns: it never looks at the colour image or at
    the union-find, it scans the label image and caches one box per region
    found. *)
Lemma simularity_set_init_returns region_image image disjoint_set :
  ∃ m,
    simularity_set_init region_image image disjoint_set
    = Ok (with_bounding_boxes
            (find_neighboring_regions (fresh region_image image disjoint_set))
            m) ∧
    ∀ r, (r ∈ region_set
                (find_neighboring_regions (fresh region_image image disjoint_set)) →
          ∃ box, create_bounding_box (fresh region_image image disjoint_set) r
                 = Ok box ∧ m !! r = Some box) ∧
         (r ∉ region_set
                (find_neighboring_regions (fresh region_image image disjoint_set)) →
          m !! r = None).
Proof.
  set (self0 := fresh region_image image disjoint_set).
  set (self1 := find_neighboring_regions self0).
  assert (same_frame self0 self1) as Hfr.
  { unfold self1. rewrite find_neighboring_regions_edges. apply add_edges_frame. }
  destruct (cache_bounding_boxes_returns self1 (elements (region_set self1)))
    as (m & Hm & Hin & Hout).
  { intros r Hr%elem_of_elements. eapply occurs_frame; [done|].
    by apply scanned_regions_occur. }
  exists m. split.
  - revert Hm. unfold simularity_set_init, self1, self0, fresh.
    by destruct (shape region_image) as [h w].
  - intros r. split.
    + intros Hr%elem_of_elements. destruct (Hin r Hr) as (box & Hb & Hl).
      exists box. split; [|done].
      by rewrite <- (create_bounding_box_frame self0 self1).
    + intros Hr. rewrite Hout by (by rewrite elem_of_elements).
      unfold self1. rewrite find_neighboring_regions_edges.
      by rewrite add_edges_bounding_boxes.
Qed.

(** The pairs the scan visits are the pairs of labels of 8-adjacent pixels,
    each met from the pixel that comes first in scan order. *)
Lemma image_edges_touch img a b :
  (a, b) ∈ image_edges img (shape img).1 (shape img).2 ∨
  (b, a) ∈ image_edges img (shape img).1 (shape img).2 ↔
  regions_touch img a b.
Proof.
  unfold regions_touch. rewrite !elem_of_image_edges. split.
  - intros [(p & q & Hp & Hq & -> & ->)|(p & q & Hp & Hq & -> & ->)].
    + assert (in_bounds (shape img).1 (shape img).2 q) as Hqb
        by (destruct Hp; by eapply forward_neighbours_in_bounds).
      exists p, q. split; [done|]. split; [done|]. split; [|done].
      apply (adjacent8_forward _ _ p q Hp Hqb). by left.
    + assert (in_bounds (shape img).1 (shape img).2 q) as Hqb
        by (destruct Hp; by eapply forward_neighbours_in_bounds).
      exists q, p. split; [done|]. split; [done|]. split; [|done].
      apply (adjacent8_forward _ _ q p Hqb Hp). by right.
  - intros (p & q & Hp & Hq & Hadj & <- & <-).
    apply (adjacent8_forward _ _ p q Hp Hq) in Hadj as [Hfwd|Hfwd].
    + left. by exists p, q.
    + right. by exists q, p.
Qed.

(** C4: construction returns, and in the constructed object an unordered
    pair of distinct labels is recorded exactly when some pixel of the one is
    8-adjacent to some pixel of the other in the label image; a stored pair
    joins two distinct labels and its reverse is not stored, so every
    unordered pair is stored at most once. *)
Theorem C4_adjacency_sound_and_complete
    (img : ndarray) (im : color_image) (ds : disjoint_set_t) :
  ∃ self,
    simularity_set_init img im ds = Ok self ∧
    (∀ a b, a ≠ b → recorded self a b ↔ regions_touch img a b) ∧
    (∀ a b, (a, b) ∈ sim_set self → a ≠ b ∧ (b, a) ∉ sim_set self).
Proof.
  destruct (simularity_set_init_returns img im ds)
    as (m & Hinit & _).
  eexists. split; [exact Hinit|].
  set (self0 := fresh img im ds).
  split.
  - intros a b Hne.
    change (recorded (with_bounding_boxes (find_neighboring_regions self0) m) a b)
      with (recorded (find_neighboring_regions self0) a b).
    rewrite find_neighboring_regions_edges, recorded_add_edges.
    rewrite <- image_edges_touch. unfold recorded, self0, fresh.
    cbn [sim_set region_image height width]. rewrite !elem_of_empty. tauto.
  - intros a b.
    change (sim_set (with_bounding_boxes (find_neighboring_regions self0) m))
      with (sim_set (find_neighboring_regions self0)).
    rewrite find_neighboring_regions_edges.
    apply add_edges_one_order, fresh_one_order.
Qed.

(** ** Removing a pair *)

Lemma no_set_with_true self x :
  no_set_with self x = true ↔
  ∀ p, p ∈ sim_set self → ¬ tuple_contains x p.
Proof.
  unfold no_set_with. rewrite bool_decide_eq_true. split.
  - intros E p Hp Hc.
    assert (p ∈ filter (tuple_contains x) (sim_set self)) as Hin
      by (by apply elem_of_filter).
    rewrite E in Hin. by apply not_elem_of_empty in Hin.
  - intros H. apply set_eq. intros p.
    rewrite elem_of_filter, elem_of_empty. naive_solver.
Qed.

Lemma no_set_with_false self x :
  no_set_with self x = false ↔
  ∃ p, p ∈ sim_set self ∧ tuple_contains x p.
Proof.
  split.
  - intros E. unfold no_set_with in E. apply bool_decide_eq_false in E.
    apply set_choose_L in E as [p Hp]. apply elem_of_filter in Hp. naive_solver.
  - intros (p & Hp & Hc). apply not_true_is_false.
    rewrite no_set_with_true. naive_solver.
Qed.

Lemma with_sim_set_id self : with_sim_set self (sim_set self) = self.
Proof. by destruct self. Qed.

Lemma remove_pairs_without_pair self s :
  (let self1 :=
     if bool_decide (s ∈ sim_set self)
     then with_sim_set self (sim_set self ∖ {[ s ]})
     else self in
   if bool_decide ((s.2, s.1) ∈ sim_set self1)
   then with_sim_set self1 (sim_set self1 ∖ {[ (s.2, s.1) ]})
   else self1)
  = without_pair self s.
Proof.
  unfold without_pair. cbv zeta.
  assert (∀ self' : simularity_set, ∀ x : Z * Z,
            (if bool_decide (x ∈ sim_set self')
             then with_sim_set self' (sim_set self' ∖ {[ x ]})
             else self')
            = with_sim_set self' (sim_set self' ∖ {[ x ]})) as Hstep.
  { intros self' x. case_bool_decide as Hx; [done|].
    rewrite <- (with_sim_set_id self') at 1. f_equal. set_solver. }
  by rewrite !Hstep.
Qed.

(** [remove_set] with its first half folded into [without_pair]. *)
Lemma remove_set_unfold self s :
  remove_set self s =
  match (if no_set_with (without_pair self s) s.1
         then set_remove s.1 (region_set self)
         else Ok (region_set self)) with
  | Raise e => (without_pair self s, Raise e)
  | Ok rs3 =>
      match (if no_set_with (without_pair self s) s.2
             then set_remove s.2 rs3
             else Ok rs3) with
      | Raise e => (with_region_set (without_pair self s) rs3, Raise e)
      | Ok rs4 => (with_region_set (without_pair self s) rs4, Ok ())
      end
  end.
Proof.
  unfold remove_set. cbv zeta.
  pose proof (remove_pairs_without_pair self s) as E. cbv zeta in E.
  rewrite E. reflexivity.
Qed.

Lemma remove_set_frame self s : same_frame self (remove_set self s).1.
Proof.
  rewrite remove_set_unfold.
  repeat (case_match; try done).
Qed.

Lemma remove_set_bounding_boxes self s :
  bounding_boxes (remove_set self s).1 = bounding_boxes self.
Proof.
  rewrite remove_set_unfold.
  repeat (case_match; try done).
Qed.

Lemma sim_set_remove_set self s :
  sim_set (remove_set self s).1 = sim_set self ∖ {[ s ]} ∖ {[ (s.2, s.1) ]}.
Proof.
  rewrite remove_set_unfold.
  repeat (case_match; try done).
Qed.

Lemma elem_of_without_pair self s p :
  p ∈ sim_set (without_pair self s) ↔
  p ∈ sim_set self ∧ p ≠ s ∧ p ≠ (s.2, s.1).
Proof. unfold without_pair. cbn. set_solver. Qed.

(** A pair that holds a label other than the two removed ones survives. *)
Lemma other_pairs_survive self s r :
  r ≠ s.1 → r ≠ s.2 →
  (∃ p, p ∈ sim_set (without_pair self s) ∧ tuple_contains r p) ↔
  (∃ p, p ∈ sim_set self ∧ tuple_contains r p).
Proof.
  intros H1 H2. split; intros (p & Hp & Hc).
  - exists p. apply elem_of_without_pair in Hp. tauto.
  - exists p. split; [|done]. apply elem_of_without_pair.
    split; [done|]. destruct s as [a b], p as [x y].
    unfold tuple_contains in Hc. cbn in *.
    split; intros ?; simplify_eq; tauto.
Qed.

Lemma surviving_label_is_live self s x :
  live_invariant self →
  no_set_with (without_pair self s) x = false → x ∈ region_set self.
Proof.
  intros Hinv (p & Hp & Hc)%no_set_with_false.
  apply Hinv. exists p. apply elem_of_without_pair in Hp. tauto.
Qed.

(** [remove_set] keeps the liveness invariant, however the call ends. *)
Lemma remove_set_live_invariant self s :
  live_invariant self → live_invariant (remove_set self s).1.
Proof.
  intros Hinv. rewrite remove_set_unfold.
  set (self2 := without_pair self s).
  assert (∀ r, r ≠ s.1 → r ≠ s.2 →
            (r ∈ region_set self ↔
             ∃ p, p ∈ sim_set self2 ∧ tuple_contains r p)) as Hother.
  { intros r H1 H2. unfold self2.
    rewrite other_pairs_survive by done. apply Hinv. }
  assert (∀ x, no_set_with self2 x = true →
            ¬ ∃ p, p ∈ sim_set self2 ∧ tuple_contains x p) as Hdead.
  { intros x E (p & Hp & Hc).
    destruct (proj1 (no_set_with_true self2 x) E p Hp Hc). }
  assert (∀ x, no_set_with self2 x = false →
            x ∈ region_set self ∧
            ∃ p, p ∈ sim_set self2 ∧ tuple_contains x p) as Hlive.
  { intros x E. split; [by eapply surviving_label_is_live|].
    by apply no_set_with_false. }
  assert (∀ x, ¬ (∃ p, p ∈ sim_set self2 ∧ tuple_contains x p) →
            x ∈ region_set self →
            s.1 ∈ region_set self ∧ s.2 ∈ region_set self) as Hgone.
  { intros x Hx (p & Hp & Hc)%Hinv.
    assert (p = s ∨ p = (s.2, s.1)) as Hp'.
    { destruct (decide (p = s)) as [|N]; [by left|].
      destruct (decide (p = (s.2, s.1))) as [|N']; [by right|].
      destruct Hx. exists p. split; [|done]. by apply elem_of_without_pair. }
    assert (∀ y, tuple_contains y p → y ∈ region_set self) as Hy
      by (intros y ?; apply Hinv; eauto).
    destruct Hp' as [->| ->]; split; apply Hy; unfold tuple_contains; cbn; tauto. }
  pose proof (Hgone s.1) as Hgone1. pose proof (Hgone s.2) as Hgone2.
  destruct (no_set_with self2 s.1) eqn:E1;
    [apply Hdead in E1; unfold set_remove at 1; case_bool_decide as Ha
    |apply Hlive in E1 as [Ha E1]];
    (destruct (no_set_with self2 s.2) eqn:E2;
       [apply Hdead in E2; try (unfold set_remove; case_bool_decide as Hb)
       |apply Hlive in E2 as [Hb E2]]);
    cbn [fst]; intros r;
    change (region_set (with_region_set self2 ?R)) with R;
    change (sim_set (with_region_set self2 ?R)) with (sim_set self2);
    change (region_set self2) with (region_set self);
    rewrite ?elem_of_difference, ?elem_of_singleton in *;
    destruct (decide (r = s.1)) as [Ea|N1];
    destruct (decide (r = s.2)) as [Eb|N2];
    try (specialize (Hother r N1 N2); tauto);
    clear Hother Hdead Hlive Hinv Hgone;
    subst r; try (rewrite <- Eb in *); tauto.
Qed.

Lemma remove_set_one_order self s :
  one_order self → one_order (remove_set self s).1.
Proof.
  intros Hinv a b. rewrite sim_set_remove_set, !elem_of_difference.
  intros [[Hin _] _]. destruct (Hinv a b Hin) as [Hne Hrev]. tauto.
Qed.

Lemma without_pair_absent self s :
  s ∉ sim_set self → (s.2, s.1) ∉ sim_set self → without_pair self s = self.
Proof.
  intros H1 H2. unfold without_pair.
  rewrite <- (with_sim_set_id self) at 3. f_equal. set_solver.
Qed.

(** ** Reachable objects *)

Lemma constructed_invariants img im ds self :
  simularity_set_init img im ds = Ok self →
  live_invariant self ∧ one_order self.
Proof.
  destruct (simularity_set_init_returns img im ds) as (m & -> & _).
  intros [= <-]. split.
  - change (live_invariant (find_neighboring_regions (fresh img im ds))).
    rewrite find_neighboring_regions_edges.
    apply add_edges_live_invariant, fresh_live_invariant.
  - change (one_order (find_neighboring_regions (fresh img im ds))).
    rewrite find_neighboring_regions_edges.
    apply add_edges_one_order, fresh_one_order.
Qed.

Lemma reachable_invariants self :
  reachable self → live_invariant self ∧ one_order self.
Proof.
  induction 1 as [img im ds self Hinit|self a b _ [IH1 IH2]|self s _ [IH1 IH2]].
  - by eapply constructed_invariants.
  - split; [by apply add_set_live_invariant|by apply add_set_one_order].
  - split; [by apply remove_set_live_invariant|by apply remove_set_one_order].
Qed.

Lemma live_invariant_pair_labels self :
  live_invariant self → region_set self = pair_labels (sim_set self).
Proof.
  intros Hinv. apply set_eq. intros r. rewrite (Hinv r).
  unfold pair_labels. rewrite elem_of_union, !elem_of_map.
  unfold tuple_contains. naive_solver.
Qed.

(** C5: in every reachable object a label is in the region set exactly when
    some pair of the adjacency set contains it; so a label with no pair left
    is not in the region set, and the number of regions is the number of
    distinct labels that occur in the pairs. *)
Theorem C5_region_set_is_labels_of_pairs (self : simularity_set) :
  reachable self →
  (∀ r, r ∈ get_regions self ↔
        ∃ p, p ∈ get_sim_set self ∧ tuple_contains r p) ∧
  (∀ r, (∀ p, p ∈ get_sim_set self → ¬ tuple_contains r p) →
        r ∉ get_regions self) ∧
  simularity_set_len self = size (pair_labels (get_sim_set self)).
Proof.
  intros [Hinv _]%reachable_invariants. unfold get_regions, get_sim_set.
  split; [exact Hinv|]. split.
  - intros r Hnone (p & Hp & Hc)%Hinv. by apply (Hnone p).
  - unfold simularity_set_len. by rewrite (live_invariant_pair_labels self).
Qed.

(** *** How [remove_set] ends *)

(** With both labels in the region set the call returns. *)
Lemma remove_set_returns self s :
  live_invariant self → one_order self →
  s.1 ∈ region_set self → s.2 ∈ region_set self →
  (remove_set self s).2 = Ok ().
Proof.
  intros Hinv Hord Ha Hb. rewrite remove_set_unfold.
  set (self2 := without_pair self s).
  assert (s.1 = s.2 → no_set_with self2 s.1 = false) as Hsame.
  { intros E. apply no_set_with_false.
    apply Hinv in Ha as (p & Hp & Hc). exists p. split; [|done].
    apply elem_of_without_pair. split; [done|].
    destruct s as [a b]; cbn in *. subst b.
    split; intros ->; by destruct (Hord a a Hp). }
  destruct (no_set_with self2 s.1) eqn:E1.
  - unfold set_remove at 1. rewrite bool_decide_eq_true_2 by done.
    destruct (no_set_with self2 s.2) eqn:E2; [|done].
    unfold set_remove. case_bool_decide as Hb'; [done|].
    destruct Hb'. apply elem_of_difference. split; [done|].
    rewrite elem_of_singleton. intros E. symmetry in E.
    specialize (Hsame E). congruence.
  - destruct (no_set_with self2 s.2) eqn:E2; [|done].
    unfold set_remove. by rewrite bool_decide_eq_true_2.
Qed.

(** With one of the labels outside the region set the call raises
    [KeyError] and leaves the object as it was. *)
Lemma remove_set_raises self s :
  live_invariant self →
  ¬ (s.1 ∈ region_set self ∧ s.2 ∈ region_set self) →
  remove_set self s = (self, Raise KeyError).
Proof.
  intros Hinv Hnot.
  assert ((s ∉ sim_set self) ∧ ((s.2, s.1) ∉ sim_set self)) as [Hs Hrev].
  { split; intros Hin; destruct Hnot; split; apply Hinv;
      eexists; (split; [exact Hin|]); unfold tuple_contains; cbn; tauto. }
  rewrite remove_set_unfold, without_pair_absent by done.
  assert (∀ x, x ∉ region_set self → no_set_with self x = true) as Hdead.
  { intros x Hx. apply no_set_with_true. intros p Hp Hc.
    apply Hx, Hinv. eauto. }
  assert (∀ x, x ∈ region_set self → no_set_with self x = false) as Hlive.
  { intros x Hx. apply no_set_with_false. by apply Hinv. }
  destruct (decide (s.1 ∈ region_set self)) as [Ha|Ha].
  - rewrite (Hlive _ Ha).
    assert (s.2 ∉ region_set self) as Hb by tauto.
    change (no_set_with (with_region_set self (region_set self)) s.2)
      with (no_set_with self s.2).
    rewrite (Hdead _ Hb). unfold set_remove.
    rewrite bool_decide_eq_false_2 by done. by destruct self.
  - rewrite (Hdead _ Ha). unfold set_remove.
    by rewrite bool_decide_eq_false_2.
Qed.

(** Removing a pair that is not stored leaves the object as it was. *)
Lemma remove_set_absent_state self s :
  live_invariant self →
  s ∉ sim_set self → (s.2, s.1) ∉ sim_set self →
  (remove_set self s).1 = self.
Proof.
  intros Hinv Hs Hrev.
  destruct (decide (s.1 ∈ region_set self ∧ s.2 ∈ region_set self)) as [[Ha Hb]|Hnot];
    [|by rewrite remove_set_raises].
  rewrite remove_set_unfold, without_pair_absent by done.
  assert (∀ x, x ∈ region_set self → no_set_with self x = false) as Hlive.
  { intros x Hx. apply no_set_with_false. by apply Hinv. }
  rewrite (Hlive _ Ha).
  change (no_set_with (with_region_set self (region_set self)) s.2)
    with (no_set_with self s.2).
  rewrite (Hlive _ Hb). by destruct self.
Qed.

(** C2 (amended): for every reachable object and every pair, a second
    [remove_set] of the same pair leaves the object as the first call left
    it, and removing a pair that is not stored leaves the object unchanged;
    but the call returns normally only when both labels are in the region
    set, and raises [KeyError] (from [region_set.remove]) otherwise. *)
Theorem C2_remove_set_state_idempotent_but_raises
    (self : simularity_set) (s : Z * Z) :
  reachable self →
  (remove_set (remove_set self s).1 s).1 = (remove_set self s).1 ∧
  (s ∉ sim_set self → (s.2, s.1) ∉ sim_set self →
   (remove_set self s).1 = self) ∧
  (s.1 ∈ region_set self ∧ s.2 ∈ region_set self →
   (remove_set self s).2 = Ok ()) ∧
  (¬ (s.1 ∈ region_set self ∧ s.2 ∈ region_set self) →
   remove_set self s = (self, Raise KeyError)).
Proof.
  intros Hreach.
  destruct (reachable_invariants self Hreach) as [Hinv Hord].
  split; [|split; [|split]].
  - apply remove_set_absent_state.
    + by apply remove_set_live_invariant.
    + rewrite sim_set_remove_set. set_solver.
    + rewrite sim_set_remove_set. set_solver.
  - by apply remove_set_absent_state.
  - intros [Ha Hb]. by apply remove_set_returns.
  - by apply remove_set_raises.
Qed.

(** ** The smoke test of the module *)

Lemma Ok_inj {A : Type} (a b : A) : Ok a = Ok b → a = b.
Proof. by intros [= ->]. Qed.

Lemma simularity_set_init_constructed img im ds :
  simularity_set_init img im ds = Ok (constructed img im ds).
Proof.
  destruct (simularity_set_init_returns img im ds) as (m & Hinit & _).
  unfold constructed. by rewrite Hinit.
Qed.

Lemma reachable_constructed img im ds : reachable (constructed img im ds).
Proof.
  apply (reachable_init img im ds), simularity_set_init_constructed.
Qed.

(** On [[1, 2]]: the first removal of (1, 2) returns, the second raises, and
    so does the removal of a pair of labels the image does not have. *)
Lemma remove_set_twice_example :
  (remove_set (constructed one_by_two black_2x2 singletons) (1, 2)).2 = Ok () ∧
  (remove_set
     (remove_set (constructed one_by_two black_2x2 singletons) (1, 2)).1
     (1, 2)).2 = Raise KeyError ∧
  (remove_set (constructed one_by_two black_2x2 singletons) (3, 4)).2
  = Raise KeyError.
Proof. repeat split; vm_compute; reflexivity. Qed.

(** C2 (counterexample): on the object built from the label image [[1, 2]],
    the first [remove_set((1, 2))] returns and the second one raises
    [KeyError]: the call is not free of errors. *)
Lemma C2_counterexample_second_remove_raises :
  ¬ (∀ self s, reachable self →
       (remove_set (remove_set self s).1 s).1 = (remove_set self s).1 ∧
       (remove_set self s).2 = Ok () ∧
       (remove_set (remove_set self s).1 s).2 = Ok ()).
Proof.
  intros H.
  destruct (H (constructed one_by_two black_2x2 singletons) (1, 2)
              (reachable_constructed _ _ _)) as (_ & _ & H2).
  destruct remove_set_twice_example as (_ & H2' & _).
  rewrite H2' in H2. discriminate H2.
Qed.

(** C3 (amended): for the label image [[1,2,3],[4,5,6],[4,4,6]] construction
    records 12 pairs among the 6 labels, all of them live; after
    [remove_set] of (1,2), (1,4) and (1,5), which all return, label 1 is no
    longer in the region set, 5 regions are left and 9 pairs. *)
Theorem C3_smoke_test (im : color_image) (ds : disjoint_set_t) :
  ∃ self,
    simularity_set_init test_region_image im ds = Ok self ∧
    size (get_sim_set self) = 12%nat ∧
    get_regions self = list_to_set [1; 2; 3; 4; 5; 6] ∧
    (remove_sets self [(1, 2); (1, 4); (1, 5)]).2 = Ok () ∧
    (1 ∉ get_regions (remove_sets self [(1, 2); (1, 4); (1, 5)]).1) ∧
    simularity_set_len (remove_sets self [(1, 2); (1, 4); (1, 5)]).1 = 5%nat ∧
    size (get_sim_set (remove_sets self [(1, 2); (1, 4); (1, 5)]).1) = 9%nat.
Proof.
  exists (constructed test_region_image im ds).
  split; [apply simularity_set_init_constructed|].
  split; [vm_compute; reflexivity|].
  split; [vm_compute; reflexivity|].
  split; [vm_compute; reflexivity|].
  split; [|split; vm_compute; reflexivity].
  intros Hin. vm_compute in Hin. discriminate Hin.
Qed.

(** C3 (counterexample): the numbers of the claim, 9 pairs after
    construction and 6 after the three removals, are not what the
    construction yields. *)
Lemma C3_counterexample_pair_counts :
  ¬ (∃ self,
       simularity_set_init test_region_image black_3x3 singletons = Ok self ∧
       size (get_sim_set self) = 9%nat ∧
       size (get_regions self) = 6%nat ∧
       (1 ∉ get_regions (remove_sets self [(1, 2); (1, 4); (1, 5)]).1) ∧
       simularity_set_len (remove_sets self [(1, 2); (1, 4); (1, 5)]).1 = 5%nat ∧
       size (get_sim_set (remove_sets self [(1, 2); (1, 4); (1, 5)]).1) = 6%nat).
Proof.
  intros (self & Hinit & H9 & _).
  rewrite simularity_set_init_constructed in Hinit.
  apply Ok_inj in Hinit. subst self.
  vm_compute in H9. discriminate H9.
Qed.

(** ** Unknown regions *)

(** C6 (amended): for a label that occurs nowhere in the label image,
    [get_indices_of_region] returns the empty list of coordinates, and
    [create_bounding_box] raises [ValueError] (the [min] of an empty
    sequence): it returns no box at all. *)
Theorem C6_unknown_region (self : simularity_set) (l : Z) :
  ¬ occurs self l →
  get_indices_of_region self l = [] ∧
  create_bounding_box self l = Raise ValueError.
Proof.
  intros Habs. split.
  - by apply get_indices_of_region_absent.
  - by apply create_bounding_box_absent.
Qed.

(** Label 3 in the object built from [[1, 2]]. *)
Lemma C6_unknown_region_witness :
  ¬ occurs (constructed one_by_two black_2x2 singletons) 3 ∧
  get_indices_of_region (constructed one_by_two black_2x2 singletons) 3 = [] ∧
  create_bounding_box (constructed one_by_two black_2x2 singletons) 3
  = Raise ValueError.
Proof.
  assert (¬ occurs (constructed one_by_two black_2x2 singletons) 3) as Habs.
  { intros Hocc%get_indices_of_region_occurs. apply Hocc.
    vm_compute. reflexivity. }
  split; [exact Habs|].
  apply (C6_unknown_region (constructed one_by_two black_2x2 singletons) 3 Habs).
Defined.

(** C6 (counterexample): label 3 does not occur in [[1, 2]], and
    [create_bounding_box] returns no zero-area box for it. *)
Lemma C6_counterexample_no_empty_box :
  ¬ (∀ self l, ¬ occurs self l →
       get_indices_of_region self l = [] ∧
       ∃ box, create_bounding_box self l = Ok box ∧ bounding_box_len box = 0).
Proof.
  intros H.
  destruct (H (constructed one_by_two black_2x2 singletons) 3)
    as (_ & box & Hbox & _).
  - intros Hocc%get_indices_of_region_occurs. apply Hocc.
    vm_compute. reflexivity.
  - vm_compute in Hbox. discriminate Hbox.
Qed.

(** ** The colour image at construction *)

Lemma add_set_sets self self' a b :
  sim_set self' = sim_set self → region_set self' = region_set self →
  sim_set (add_set self' a b) = sim_set (add_set self a b) ∧
  region_set (add_set self' a b) = region_set (add_set self a b).
Proof.
  intros Hs Hr. unfold add_set. rewrite Hs.
  repeat case_bool_decide; cbn; by rewrite ?Hs, ?Hr.
Qed.

Lemma add_edges_sets self self' l :
  sim_set self' = sim_set self → region_set self' = region_set self →
  sim_set (add_edges self' l) = sim_set (add_edges self l) ∧
  region_set (add_edges self' l) = region_set (add_edges self l).
Proof.
  revert self self'. induction l as [|e l IH]; intros self self' Hs Hr; [done|].
  cbn. destruct (add_set_sets self self' e.1 e.2 Hs Hr) as [Hs' Hr'].
  by apply IH.
Qed.

Lemma create_bounding_box_ext self self' l :
  region_image self' = region_image self →
  height self' = height self → width self' = width self →
  create_bounding_box self' l = create_bounding_box self l.
Proof.
  intros E1 E2 E3.
  unfold create_bounding_box, get_indices_of_region. by rewrite E1, E2, E3.
Qed.

(** C7 (amended): construction never compares the two images.  For every
    label image and every colour image, of whatever dimensions, it returns;
    the object keeps the colour image as given and takes its height, width
    and size from the label image alone; and the pairs, the regions and the
    cached boxes are the same for any other colour image. *)
Theorem C7_construction_ignores_color_image
    (img : ndarray) (im : color_image) (ds : disjoint_set_t) :
  ∃ self,
    simularity_set_init img im ds = Ok self ∧
    image self = im ∧
    region_image self = img ∧
    (height self, width self) = shape img ∧
    image_size self = Z.of_nat (shape img).1 * Z.of_nat (shape img).2 ∧
    ∀ im', ∃ self',
      simularity_set_init img im' ds = Ok self' ∧
      sim_set self' = sim_set self ∧
      region_set self' = region_set self ∧
      bounding_boxes self' = bounding_boxes self.
Proof.
  destruct (simularity_set_init_returns img im ds) as (m & Hinit & Hm).
  eexists. split; [exact Hinit|].
  pose proof (find_neighboring_regions_edges (fresh img im ds)) as Hscan.
  destruct (add_edges_frame (fresh img im ds)
              (image_edges img (shape img).1 (shape img).2))
    as (F1 & F2 & _ & F4 & F5 & F6).
  change (region_image (fresh img im ds)) with img in Hscan.
  change (height (fresh img im ds)) with (shape img).1 in Hscan.
  change (width (fresh img im ds)) with (shape img).2 in Hscan.
  rewrite <- Hscan in F1, F2, F4, F5, F6.
  unfold with_bounding_boxes at 1 2 3 4 5.
  cbn [image region_image height width image_size].
  split; [exact F2|]. split; [exact F1|].
  split; [rewrite F4, F5; reflexivity|].
  split; [exact F6|].
  intros im'.
  destruct (simularity_set_init_returns img im' ds) as (m' & Hinit' & Hm').
  eexists. split; [exact Hinit'|].
  pose proof (find_neighboring_regions_edges (fresh img im' ds)) as Hscan'.
  change (region_image (fresh img im' ds)) with img in Hscan'.
  change (height (fresh img im' ds)) with (shape img).1 in Hscan'.
  change (width (fresh img im' ds)) with (shape img).2 in Hscan'.
  destruct (add_edges_sets (fresh img im ds) (fresh img im' ds)
              (image_edges img (shape img).1 (shape img).2) eq_refl eq_refl)
    as [Hs Hr].
  rewrite <- Hscan, <- Hscan' in Hs, Hr.
  split; [exact Hs|]. split; [exact Hr|].
  cbn [bounding_boxes with_bounding_boxes].
  apply map_eq. intros r.
  destruct (Hm r) as [Hin Hout], (Hm' r) as [Hin' Hout'].
  destruct (decide (r ∈ region_set (find_neighboring_regions (fresh img im ds))))
    as [Hr1|Hr1].
  - destruct (Hin Hr1) as (box & Hb & ->).
    rewrite <- Hr in Hr1. destruct (Hin' Hr1) as (box' & Hb' & ->).
    rewrite (create_bounding_box_ext (fresh img im ds) (fresh img im' ds)) in Hb'
      by done.
    congruence.
  - rewrite (Hout Hr1). rewrite <- Hr in Hr1. by rewrite (Hout' Hr1).
Qed.

(** C7 (counterexample): the 1 x 2 label image [[1, 2]] with a 2 x 2 colour
    image: the dimensions disagree and construction returns an object. *)
Lemma C7_counterexample_mismatch_accepted :
  ¬ (∀ img im ds, shape img ≠ color_shape im →
       ∃ e, simularity_set_init img im ds = Raise e).
Proof.
  intros H.
  destruct (H one_by_two black_2x2 singletons) as (e & He).
  - vm_compute. intros [=].
  - rewrite simularity_set_init_constructed in He. discriminate He.
Qed.

(** ** Binary64 rounding *)

Lemma inject_Z_succ z : (inject_Z (z + 1) == inject_Z z + 1)%Q.
Proof. rewrite inject_Z_plus. reflexivity. Qed.

Lemma rne_close x :
  (x - (1 # 2) <= inject_Z (rne x) <= x + (1 # 2))%Q.
Proof.
  unfold rne. pose proof (Qfloor_le x) as Hf. pose proof (Qlt_floor x) as Hc.
  rewrite inject_Z_succ in Hc.
  destruct (x - inject_Z (Qfloor x) ?= 1 # 2)%Q eqn:E.
  - apply Qeq_alt in E. destruct (Z.even (Qfloor x));
      rewrite ?inject_Z_succ; split; lra.
  - apply Qlt_alt in E. split; lra.
  - apply Qgt_alt in E. rewrite inject_Z_succ. split; lra.
Qed.

Lemma rne_tie_even x :
  (inject_Z (rne x) == x + (1 # 2) ∨ inject_Z (rne x) == x - (1 # 2))%Q →
  Z.even (rne x) = true.
Proof.
  unfold rne. pose proof (Qfloor_le x) as Hf. pose proof (Qlt_floor x) as Hc.
  rewrite inject_Z_succ in Hc.
  destruct (x - inject_Z (Qfloor x) ?= 1 # 2)%Q eqn:E.
  - intros _. destruct (Z.even (Qfloor x)) eqn:Ev; [exact Ev|].
    rewrite Z.even_add, Ev. reflexivity.
  - apply Qlt_alt in E. intros [H|H]; lra.
  - apply Qgt_alt in E. rewrite inject_Z_succ. intros [H|H]; lra.
Qed.

Lemma rne_mono x y : (x <= y)%Q → rne x ≤ rne y.
Proof.
  intros Hxy.
  destruct (rne_close x) as [Hx1 Hx2], (rne_close y) as [Hy1 Hy2].
  destruct (Z_le_gt_dec (rne x) (rne y)) as [|Hgt]; [assumption|].
  assert (rne y + 1 ≤ rne x) as H1 by lia.
  rewrite Zle_Qle, inject_Z_succ in H1.
  assert (Z.even (rne x) = true) as Ex by (apply rne_tie_even; left; lra).
  assert (Z.even (rne y) = true) as Ey by (apply rne_tie_even; right; lra).
  assert (rne x = rne y + 1) as E.
  { apply Z.le_antisymm; [|lia]. rewrite Zle_Qle, inject_Z_succ. lra. }
  rewrite E, Z.even_add, Ey in Ex. discriminate Ex.
Qed.

Lemma rne_inject_Z z : rne (inject_Z z) = z.
Proof.
  unfold rne. rewrite Qfloor_Z.
  destruct (inject_Z z - inject_Z z ?= 1 # 2)%Q eqn:E; [|reflexivity|].
  - apply Qeq_alt in E. lra.
  - apply Qgt_alt in E. lra.
Qed.

Lemma pow2_pos k : (0 < 2 ^ k)%Q.
Proof. by apply Qpower_0_lt. Qed.

Lemma pow2_add a b : (2 ^ (a + b) == 2 ^ a * 2 ^ b)%Q.
Proof. by apply Qpower_plus. Qed.

Lemma pow2_succ a : (2 ^ (a + 1) == 2 * 2 ^ a)%Q.
Proof. rewrite pow2_add. change (2 ^ 1)%Q with 2%Q. ring. Qed.

Lemma pow2_le a b : a ≤ b → (2 ^ a <= 2 ^ b)%Q.
Proof. intros H. by apply Qpower_le_compat_l. Qed.

Lemma pow2_lt a b : a < b → (2 ^ a < 2 ^ b)%Q.
Proof. intros H. by apply Qpower_lt_compat_l. Qed.

Lemma pow2_lt_inv a b : (2 ^ a < 2 ^ b)%Q → a < b.
Proof. intros H. by apply (Qpower_lt_compat_l_inv 2). Qed.

Lemma pow2_inject k : 0 ≤ k → (inject_Z (2 ^ k) == 2 ^ k)%Q.
Proof. intros H. by rewrite Zpower_Qpower. Qed.

Lemma Q_as_quotient x : (x * inject_Z (Z.pos (Qden x)) == inject_Z (Qnum x))%Q.
Proof. destruct x as [n d]. unfold Qeq, Qmult, inject_Z. cbn. lia. Qed.

Lemma log2_bounds_Q z :
  0 < z → (2 ^ Z.log2 z <= inject_Z z < 2 ^ (Z.log2 z + 1))%Q.
Proof.
  intros Hz. destruct (Z.log2_spec z Hz) as [H1 H2].
  pose proof (Z.log2_nonneg z) as Hn.
  rewrite <- !pow2_inject by lia. rewrite <- Zle_Qle, <- Zlt_Qlt.
  split; [done|]. by rewrite <- Z.add_1_r in H2.
Qed.

Lemma ilog2_spec x :
  (0 < x)%Q → (2 ^ ilog2 x <= x < 2 ^ (ilog2 x + 1))%Q.
Proof.
  intros Hx. unfold ilog2.
  set (n := Qnum x). set (d := Z.pos (Qden x)).
  assert (0 < n) as Hn by (destruct x as [[|p|p] q]; done).
  assert (0 < d) as Hd by done.
  destruct (log2_bounds_Q n Hn) as [Hn1 Hn2].
  destruct (log2_bounds_Q d Hd) as [Hd1 Hd2].
  pose proof (Q_as_quotient x) as Hq. fold n d in Hq.
  set (a := Z.log2 n) in *. set (b := Z.log2 d) in *.
  pose proof (pow2_pos a). pose proof (pow2_pos b). pose proof (pow2_pos (a - b)).
  pose proof (pow2_pos (a - b - 1)).
  assert (0 < inject_Z d)%Q as Hd0 by (by rewrite <- (Zlt_Qlt 0)).
  assert (x < 2 ^ (a - b + 1))%Q as Hup.
  { apply (Qmult_lt_r _ _ (inject_Z d) Hd0). rewrite Hq.
    eapply Qlt_le_trans; [exact Hn2|].
    replace (a + 1) with ((a - b + 1) + b) by lia. rewrite pow2_add.
    apply Qmult_le_l; [apply pow2_pos|done]. }
  assert (2 ^ (a - b - 1) <= x)%Q as Hlow.
  { apply (Qmult_le_r _ _ (inject_Z d) Hd0). rewrite Hq.
    eapply Qle_trans; [|exact Hn1].
    replace a with ((a - b - 1) + (b + 1)) at 2 by lia. rewrite pow2_add.
    apply Qmult_le_l; [apply pow2_pos|]. by apply Qlt_le_weak. }
  destruct (Qle_bool (2 ^ (a - b)) x) eqn:E.
  - apply Qle_bool_iff in E. by split.
  - replace (a - b - 1 + 1) with (a - b) by lia. split; [done|].
    apply Qnot_le_lt. intros Hle%Qle_bool_iff. congruence.
Qed.

Lemma ilog2_unique x k :
  (2 ^ k <= x < 2 ^ (k + 1))%Q → ilog2 x = k.
Proof.
  intros [H1 H2].
  assert (0 < x)%Q as Hx by (eapply Qlt_le_trans; [apply (pow2_pos k)|done]).
  destruct (ilog2_spec x Hx) as [H3 H4].
  assert (ilog2 x < k + 1) by (apply pow2_lt_inv; eapply Qle_lt_trans; done).
  assert (k < ilog2 x + 1) by (apply pow2_lt_inv; eapply Qle_lt_trans; done).
  lia.
Qed.

Lemma ilog2_mono x y : (0 < x)%Q → (x <= y)%Q → ilog2 x ≤ ilog2 y.
Proof.
  intros Hx Hxy.
  assert (0 < y)%Q as Hy by (eapply Qlt_le_trans; done).
  destruct (ilog2_spec x Hx) as [H1 _], (ilog2_spec y Hy) as [_ H2].
  assert (ilog2 x < ilog2 y + 1); [|lia].
  apply pow2_lt_inv. eapply Qle_lt_trans; [exact H1|].
  eapply Qle_lt_trans; done.
Qed.

Lemma rne_le_Z x z : (x <= inject_Z z)%Q → rne x ≤ z.
Proof. intros H%rne_mono. by rewrite rne_inject_Z in H. Qed.

Lemma rne_ge_Z x z : (inject_Z z <= x)%Q → z ≤ rne x.
Proof. intros H%rne_mono. by rewrite rne_inject_Z in H. Qed.

Lemma exponent64_mono x y :
  (0 < x)%Q → (x <= y)%Q → exponent64 x ≤ exponent64 y.
Proof.
  intros Hx Hxy. pose proof (ilog2_mono x y Hx Hxy). unfold exponent64. lia.
Qed.

(** The mantissa of a positive number has at most 53 bits, and exactly 53
    above the subnormal range. *)
Lemma mantissa_bounds x :
  (0 < x)%Q →
  0 ≤ rne (x / 2 ^ exponent64 x) ≤ 2 ^ 53 ∧
  (-1074 < exponent64 x → 2 ^ 52 ≤ rne (x / 2 ^ exponent64 x)).
Proof.
  intros Hx. destruct (ilog2_spec x Hx) as [H1 H2].
  set (e := exponent64 x).
  pose proof (pow2_pos e) as He.
  split; [split|].
  - apply rne_ge_Z. apply Qle_shift_div_l; [done|]. change (inject_Z 0) with 0%Q. lra.
  - apply rne_le_Z. apply Qle_shift_div_r; [done|].
    rewrite pow2_inject by lia. rewrite <- pow2_add.
    apply Qlt_le_weak. eapply Qlt_le_trans; [exact H2|].
    apply pow2_le. unfold e, exponent64. lia.
  - intros Hn. apply rne_ge_Z. apply Qle_shift_div_l; [done|].
    rewrite pow2_inject by lia. rewrite <- pow2_add.
    eapply Qle_trans; [|exact H1]. apply pow2_le. unfold e, exponent64 in *. lia.
Qed.

Lemma round_pos_nonneg x : (0 < x)%Q → (0 <= round_pos x)%Q.
Proof.
  intros Hx. destruct (mantissa_bounds x Hx) as [[H0 _] _].
  unfold round_pos. apply Qmult_le_0_compat.
  - by rewrite <- (Zle_Qle 0).
  - apply Qlt_le_weak, pow2_pos.
Qed.

Lemma round_pos_mono x y :
  (0 < x)%Q → (x <= y)%Q → (round_pos x <= round_pos y)%Q.
Proof.
  intros Hx Hxy.
  assert (0 < y)%Q as Hy by (eapply Qlt_le_trans; done).
  pose proof (exponent64_mono x y Hx Hxy) as He.
  unfold round_pos.
  destruct (Z.eq_dec (exponent64 x) (exponent64 y)) as [E|E].
  - rewrite E. apply Qmult_le_compat_r; [|apply Qlt_le_weak, pow2_pos].
    rewrite <- Zle_Qle. apply rne_mono.
    apply Qmult_le_compat_r; [done|]. apply Qlt_le_weak, Qinv_lt_0_compat, pow2_pos.
  - destruct (mantissa_bounds x Hx) as [[_ Hmx] _].
    destruct (mantissa_bounds y Hy) as [_ Hmy].
    specialize (Hmy ltac:(unfold exponent64 in *; lia)).
    rewrite Zle_Qle in Hmx, Hmy.
    rewrite pow2_inject in Hmx, Hmy by lia.
    pose proof (pow2_pos (exponent64 x)). pose proof (pow2_pos (exponent64 y)).
    eapply Qle_trans; [apply Qmult_le_compat_r; [exact Hmx|by apply Qlt_le_weak]|].
    eapply Qle_trans; [|apply Qmult_le_compat_r; [exact Hmy|by apply Qlt_le_weak]].
    rewrite <- !pow2_add. apply pow2_le. lia.
Qed.

Lemma Qnum_sign x :
  match Qnum x with
  | Z0 => (x == 0)%Q
  | Zpos _ => (0 < x)%Q
  | Zneg _ => (x < 0)%Q
  end.
Proof. by destruct x as [[|p|p] d]. Qed.

Lemma round_to_double_mono x y :
  (x <= y)%Q → (round_to_double x <= round_to_double y)%Q.
Proof.
  intros Hxy. unfold round_to_double.
  pose proof (Qnum_sign x) as Sx. pose proof (Qnum_sign y) as Sy.
  destruct (Qnum x), (Qnum y); try lra.
  - by apply round_pos_nonneg.
  - by apply round_pos_mono.
  - pose proof (round_pos_nonneg (- x) ltac:(lra)). lra.
  - pose proof (round_pos_nonneg (- x) ltac:(lra)).
    pose proof (round_pos_nonneg y ltac:(lra)). lra.
  - pose proof (round_pos_mono (- y) (- x) ltac:(lra) ltac:(lra)). lra.
Qed.

Lemma round64_Some x v :
  round64 x = Some v →
  (v == round_to_double x)%Q ∧ (Qabs v < 2 ^ 1024)%Q.
Proof.
  unfold round64. destruct (Qle_bool _ _) eqn:E; [done|].
  intros [= <-]. split; [apply Qred_correct|].
  rewrite Qred_correct. apply Qnot_le_lt. intros H%Qle_bool_iff. congruence.
Qed.

Lemma round64_None x :
  round64 x = None ↔ (2 ^ 1024 <= Qabs (round_to_double x))%Q.
Proof.
  unfold round64. destruct (Qle_bool _ _) eqn:E.
  - apply Qle_bool_iff in E. done.
  - split; [done|]. intros H%Qle_bool_iff. congruence.
Qed.

Lemma round64_finite x :
  (Qabs (round_to_double x) < 2 ^ 1024)%Q →
  ∃ v, round64 x = Some v ∧ (v == round_to_double x)%Q.
Proof.
  intros H. destruct (round64 x) as [v|] eqn:E.
  - exists v. split; [done|]. by apply round64_Some in E as [? _].
  - apply round64_None in E. lra.
Qed.

Lemma Qle_by_computation x y : Qle_bool x y = true → (x <= y)%Q.
Proof. apply Qle_bool_iff. Qed.

Lemma Qeq_by_computation x y : Qeq_bool x y = true → (x == y)%Q.
Proof. apply Qeq_bool_iff. Qed.

Lemma round_pos_below_overflow x :
  (0 < x)%Q → (round_pos x < 2 ^ 1024)%Q → (round_pos x <= max_double)%Q.
Proof.
  intros Hx Hlt. destruct (mantissa_bounds x Hx) as [[Hm0 Hm1] Hm2].
  unfold round_pos in *. set (e := exponent64 x) in *.
  set (m := rne (x / 2 ^ e)) in *.
  pose proof (pow2_pos e) as He.
  destruct (Z_lt_le_dec 971 e) as [Hbig|Hsmall].
  - specialize (Hm2 ltac:(lia)). rewrite Zle_Qle, pow2_inject in Hm2 by lia.
    assert (2 ^ 1024 <= inject_Z m * 2 ^ e)%Q; [|lra].
    eapply Qle_trans; [|apply Qmult_le_compat_r; [exact Hm2|lra]].
    rewrite <- pow2_add. apply pow2_le. lia.
  - destruct (Z.eq_dec e 971) as [E|E].
    + rewrite E in *.
      assert (inject_Z m < 2 ^ 53)%Q as Hm.
      { apply (Qmult_lt_r _ _ (2 ^ 971) He). rewrite <- pow2_add. exact Hlt. }
      rewrite <- pow2_inject, <- Zlt_Qlt in Hm by lia.
      assert (m ≤ 2 ^ 53 - 1) as Hm' by lia.
      rewrite Zle_Qle in Hm'. unfold Z.sub in Hm'.
      rewrite inject_Z_plus, pow2_inject in Hm' by lia.
      change (inject_Z (- (1))) with (- (1))%Q in Hm'.
      unfold max_double.
      replace 1024 with (53 + 971) by lia. rewrite pow2_add.
      assert (inject_Z m * 2 ^ 971 <= (2 ^ 53 + - (1)) * 2 ^ 971)%Q
        by (apply Qmult_le_compat_r; [done|lra]).
      lra.
    + rewrite Zle_Qle, pow2_inject in Hm1 by lia.
      assert (inject_Z m * 2 ^ e <= 2 ^ 1023)%Q as H.
      { eapply Qle_trans; [apply Qmult_le_compat_r; [exact Hm1|lra]|].
        rewrite <- pow2_add. apply pow2_le. lia. }
      eapply Qle_trans; [exact H|].
      apply Qle_by_computation. vm_compute. reflexivity.
Qed.

Lemma round_to_double_below_overflow x :
  (Qabs (round_to_double x) < 2 ^ 1024)%Q →
  (- max_double <= round_to_double x <= max_double)%Q.
Proof.
  assert (0 <= max_double)%Q as Hmax
    by (apply Qle_by_computation; vm_compute; reflexivity).
  unfold round_to_double. pose proof (Qnum_sign x) as S.
  destruct (Qnum x).
  - intros _. lra.
  - pose proof (round_pos_nonneg x S) as Hnn. intros Hlt.
    rewrite Qabs_pos in Hlt by done.
    pose proof (round_pos_below_overflow x S Hlt). lra.
  - assert (0 < - x)%Q as S' by lra.
    pose proof (round_pos_nonneg (- x) S') as Hnn. intros Hlt.
    rewrite Qabs_opp, Qabs_pos in Hlt by done.
    pose proof (round_pos_below_overflow (- x) S' Hlt). lra.
Qed.

(** 1 - q never overflows when q is a finite double. *)
Lemma one_minus_double_finite q :
  (- max_double <= q <= max_double)%Q →
  (Qabs (round_to_double (1 - q)) < 2 ^ 1024)%Q.
Proof.
  intros [H1 H2].
  pose proof (round_to_double_mono (1 - q) (1 + max_double) ltac:(lra)) as Hup.
  pose proof (round_to_double_mono (1 - max_double) (1 - q) ltac:(lra)) as Hlow.
  assert (round_to_double (1 + max_double) == max_double)%Q as E1
    by (apply Qeq_by_computation; vm_compute; reflexivity).
  assert (round_to_double (1 - max_double) == - max_double)%Q as E2
    by (apply Qeq_by_computation; vm_compute; reflexivity).
  assert (max_double < 2 ^ 1024)%Q as Hmax.
  { apply Qnot_le_lt. intros H%Qle_bool_iff. vm_compute in H. discriminate H. }
  rewrite E1 in Hup. rewrite E2 in Hlow.
  apply Qabs_Qlt_condition. split; lra.
Qed.

Lemma round_to_double_0 : (round_to_double 0 == 0)%Q.
Proof. reflexivity. Qed.

Lemma round_to_double_1 : (round_to_double 1 == 1)%Q.
Proof. apply Qeq_by_computation. vm_compute. reflexivity. Qed.

(** ** Similarity by size *)

Lemma round_to_double_Qeq x y :
  (x == y)%Q → (round_to_double x == round_to_double y)%Q.
Proof.
  intros E. apply Qle_antisym; apply round_to_double_mono; lra.
Qed.

(** On quotients of every kind (inexact, a tie, subnormal, underflow to
    zero, the largest double, overflow, a negative divisor) the rounding of
    the model is that of IEEE 754 division. *)
Lemma round64_agrees_with_ieee_division :
  Forall (λ nd : Z * Z, round64 (exact_div nd.1 nd.2) = ieee_div nd.1 nd.2)
    [(-5, 6); (-4, 6); (2, 9); (1, 3); (2 ^ 53, 2); (2 ^ 53 + 1, 2);
     (2 ^ 53 + 3, 2); (1, 2 ^ 1074); (1, 2 ^ 1075); (3, 2 ^ 1075);
     (1, 3 * 2 ^ 1070); (2 ^ 1024, 1); (2 ^ 1024 - 2 ^ 970, 1);
     (2 ^ 1024 - 2 ^ 970 - 1, 1); (10 ^ 30 + 7, -3); (0, -5)].
Proof.
  repeat (constructor 2; [vm_compute; reflexivity|]). constructor 1.
Qed.

Lemma true_div_nonzero n d :
  d ≠ 0 →
  true_div n d
  = match round64 (exact_div n d) with
    | Some v => Ok (Finite v)
    | None => Raise OverflowError
    end.
Proof. intros Hd. unfold true_div. by rewrite bool_decide_eq_false_2. Qed.

(** On an image without pixels the quotient is not defined: the call
    raises. *)
Lemma s_size_empty_image self region_a region_b :
  image_size self = 0 →
  s_size self region_a region_b = Raise ZeroDivisionError.
Proof.
  intros Hn. unfold s_size, true_div. by rewrite bool_decide_eq_true_2.
Qed.

Lemma s_size_overflow self region_a region_b :
  image_size self ≠ 0 →
  round64 (exact_div (size_of (find (disjoint_set self) region_a)
                      + size_of (find (disjoint_set self) region_b))
             (image_size self)) = None →
  s_size self region_a region_b = Raise OverflowError.
Proof.
  intros Hn Hq. unfold s_size. rewrite true_div_nonzero by done.
  by rewrite Hq.
Qed.

(** A returned value comes from two roundings: of the quotient, and of the
    difference. *)
Lemma s_size_inv self region_a region_b v :
  image_size self ≠ 0 →
  s_size self region_a region_b = Ok (Finite v) →
  ∃ q,
    round64 (exact_div (size_of (find (disjoint_set self) region_a)
                        + size_of (find (disjoint_set self) region_b))
               (image_size self)) = Some q ∧
    round64 (1 - q) = Some v.
Proof.
  intros Hn. unfold s_size. rewrite true_div_nonzero by done.
  destruct (round64 (exact_div _ _)) as [q|] eqn:Hq; [|done].
  cbn [mbind result_bind]. unfold float_sub, float_of_small_int.
  change (inject_Z 1) with 1%Q.
  destruct (round64 (1 - q)) as [v'|] eqn:Hv; [|done].
  intros [= ->]. by exists q.
Qed.

Lemma s_size_returns self region_a region_b q v :
  image_size self ≠ 0 →
  round64 (exact_div (size_of (find (disjoint_set self) region_a)
                      + size_of (find (disjoint_set self) region_b))
             (image_size self)) = Some q →
  round64 (1 - q) = Some v →
  s_size self region_a region_b = Ok (Finite v).
Proof.
  intros Hn Hq Hv. unfold s_size. rewrite true_div_nonzero by done.
  rewrite Hq. cbn. unfold float_sub, float_of_small_int.
  change (inject_Z 1) with 1%Q. by rewrite Hv.
Qed.

Lemma exact_div_mono n m d :
  0 < d → n ≤ m → (exact_div n d <= exact_div m d)%Q.
Proof.
  intros Hd Hnm. unfold exact_div.
  apply Qmult_le_compat_r; [by rewrite <- Zle_Qle|].
  apply Qlt_le_weak, Qinv_lt_0_compat. by rewrite <- (Zlt_Qlt 0).
Qed.

Lemma exact_div_0 d : (exact_div 0 d == 0)%Q.
Proof. unfold exact_div, Qdiv. change (inject_Z 0) with 0%Q. ring. Qed.

(** Rounding twice: the value [1 - q] of a rounded quotient [q] of a
    quotient [t], when neither rounding overflows. *)
Lemma twice_rounded t q v :
  round64 t = Some q → round64 (1 - q) = Some v →
  (q == round_to_double t)%Q ∧
  (v == round_to_double (1 - round_to_double t))%Q.
Proof.
  intros [Hq _]%round64_Some [Hv _]%round64_Some. split; [done|].
  rewrite Hv. apply round_to_double_Qeq. by rewrite Hq.
Qed.

(** Whenever the quotient does not overflow, neither does the difference. *)
Lemma twice_rounded_returns t :
  (Qabs (round_to_double t) < 2 ^ 1024)%Q →
  ∃ q v, round64 t = Some q ∧ round64 (1 - q) = Some v.
Proof.
  intros Hfin.
  destruct (round64_finite t Hfin) as (q & Hq & Eq).
  pose proof (round_to_double_below_overflow t Hfin) as Hb.
  rewrite <- Eq in Hb.
  destruct (round64_finite (1 - q) (one_minus_double_finite q Hb))
    as (v & Hv & _).
  by exists q, v.
Qed.



(** On the 2-pixel image [[1, 2]] with regions of 2^52 pixels, and 2^52 + 1
    for region 3: the sums 2^53 and 2^53 + 1 give the same double. *)
Lemma s_size_huge_sums_example :
  s_size (constructed one_by_two black_2x2 huge_sizes) 1 2
  = Ok (Finite (-4503599627370495 # 1)) ∧
  s_size (constructed one_by_two black_2x2 huge_sizes) 1 3
  = Ok (Finite (-4503599627370495 # 1)).
Proof. split; vm_compute; reflexivity. Qed.


(** ** Similarity by fill *)

Lemma create_bounding_box_well_formed self l box :
  create_bounding_box self l = Ok box → well_formed_box box.
Proof.
  intros Hbox. unfold create_bounding_box in Hbox.
  destruct (get_indices_of_region self l) as [|[x y] rest]; [done|].
  cbn in Hbox. apply Ok_inj in Hbox. subst box.
  unfold well_formed_box; cbn.
  pose proof (foldl_min_le x (rest.*1)). pose proof (foldl_max_ge x (rest.*1)).
  pose proof (foldl_min_le y (rest.*2)). pose proof (foldl_max_ge y (rest.*2)).
  lia.
Qed.

(** How [s_fill] ends on two regions that occur in the image: the area is
    that of the source's combined box, which takes the right edge of the
    second box from its [row_start]. *)
Lemma s_fill_outcome self region_a region_b box_a box_b :
  image_size self ≠ 0 →
  create_bounding_box self (node_label (find (disjoint_set self) region_a))
  = Ok box_a →
  create_bounding_box self (node_label (find (disjoint_set self) region_b))
  = Ok box_b →
  (sys_maxsize < bounding_box_len (combine_bounding_boxes box_a box_b) →
   s_fill self region_a region_b = Raise OverflowError) ∧
  (bounding_box_len (combine_bounding_boxes box_a box_b) ≤ sys_maxsize →
   (2 ^ 1024 <=
    Qabs (round_to_double
            (exact_div
               (bounding_box_len (combine_bounding_boxes box_a box_b)
                - size_of (find (disjoint_set self) region_a)
                - size_of (find (disjoint_set self) region_b))
               (image_size self))))%Q →
   s_fill self region_a region_b = Raise OverflowError) ∧
  (bounding_box_len (combine_bounding_boxes box_a box_b) ≤ sys_maxsize →
   (Qabs (round_to_double
            (exact_div
               (bounding_box_len (combine_bounding_boxes box_a box_b)
                - size_of (find (disjoint_set self) region_a)
                - size_of (find (disjoint_set self) region_b))
               (image_size self))) < 2 ^ 1024)%Q →
   ∃ v : Q,
     s_fill self region_a region_b = Ok (Finite v) ∧
     (v == round_to_double
             (1 - round_to_double
                    (exact_div
                       (bounding_box_len (combine_bounding_boxes box_a box_b)
                        - size_of (find (disjoint_set self) region_a)
                        - size_of (find (disjoint_set self) region_b))
                       (image_size self))))%Q).
Proof.
  intros Hn Ha Hb.
  pose proof (create_bounding_box_well_formed _ _ _ Ha) as Hwa.
  pose proof (create_bounding_box_well_formed _ _ _ Hb) as Hwb.
  destruct (combine_well_formed box_a box_b Hwa Hwb) as [Hh Hw].
  assert (0 ≤ bounding_box_len (combine_bounding_boxes box_a box_b)) as Harea
    by (unfold bounding_box_len; by apply Z.mul_nonneg_nonneg).
  unfold s_fill. rewrite Ha, Hb. cbn [mbind result_bind].
  unfold combine_bounding_boxes_m, len.
  rewrite (bool_decide_eq_true_2 _ Harea).
  set (area := bounding_box_len (combine_bounding_boxes box_a box_b)) in *.
  split; [|split].
  - intros Hbig. by rewrite bool_decide_eq_false_2 by lia.
  - intros Hfit Hover. rewrite (bool_decide_eq_true_2 _ Hfit).
    cbn [mbind result_bind]. rewrite true_div_nonzero by done.
    apply round64_None in Hover. by rewrite Hover.
  - intros Hfit Hfin. rewrite (bool_decide_eq_true_2 _ Hfit).
    cbn [mbind result_bind]. rewrite true_div_nonzero by done.
    destruct (twice_rounded_returns _ Hfin) as (q & v & Hq & Hv).
    destruct (twice_rounded _ q v Hq Hv) as [_ Ev].
    exists v. split; [|exact Ev].
    rewrite Hq. cbn. unfold float_sub, float_of_small_int.
    change (inject_Z 1) with 1%Q. by rewrite Hv.
Qed.

(** C8 (code defect): on the label image [[1,2,2],[1,2,2]], with region 1 of
    2 pixels and region 2 of 4 pixels, the boxes are (row 0, col 0, 1 x 0)
    and (row 0, col 1, 1 x 1); the union of the specification is 1 x 2,
    area 2, and the formula gives 1 - (2 - 2 - 4)/6, the double
    0x1.aaaaaaaaaaaaap+0 (1.6666...), but [s_fill] combines the boxes into
    1 x 1, area 1, and returns 1 - (1 - 2 - 4)/6, the double
    0x1.d555555555556p+0 (1.8333...). *)
Theorem C8_s_fill_is_not_the_union_formula :
  s_fill (constructed two_blocks black_2x3 two_blocks_sizes) 1 2
  = Ok (Finite (4128299658422955 # 2251799813685248)) ∧
  spec_s_fill (constructed two_blocks black_2x3 two_blocks_sizes) 1 2
  = Ok (Finite (3752999689475413 # 2251799813685248)) ∧
  ¬ (4128299658422955 # 2251799813685248
     == 3752999689475413 # 2251799813685248)%Q.
Proof.
  split; [vm_compute; reflexivity|].
  split; [vm_compute; reflexivity|].
  intros H. vm_compute in H. discriminate H.
Qed.

(** ** Similarity by colour *)

(** C10: whatever the regions and the method name, [s_color] asks for the
    two histograms with channels [0, 1, 2], the list [0, 1, 2] as bins and
    the ranges [0, 256, 0, 256, 0, 256]; a histogram utility that refuses
    every other combination of parameters gives the same result, so no
    other bin specification is ever passed. *)
Theorem C10_s_color_fixed_parameters
    (cv2 : cv2_t) (hu : histogram_utils_t) (self : simularity_set)
    (region_a region_b : Z) (method_name : string) :
  s_color cv2 hu self region_a region_b method_name
  = (mask_a ← get_region_mask cv2 self
                (node_label (find (disjoint_set self) region_a));
     hist_a ← get_normalized_histogram hu (image self)
                [0; 1; 2] [0; 1; 2] [0; 256; 0; 256; 0; 256] mask_a;
     mask_b ← get_region_mask cv2 self
                (node_label (find (disjoint_set self) region_b));
     hist_b ← get_normalized_histogram hu (image self)
                [0; 1; 2] [0; 1; 2] [0; 256; 0; 256; 0; 256] mask_b;
     compare_histograms hu hist_a hist_b method_name) ∧
  s_color cv2 (fixed_parameters_only hu) self region_a region_b method_name
  = s_color cv2 hu self region_a region_b method_name.
Proof.
  unfold s_color, calculate_color_hist_of_region.
  set (la := node_label (find (disjoint_set self) region_a)).
  set (lb := node_label (find (disjoint_set self) region_b)).
  split.
  - destruct (get_region_mask cv2 self la) as [mask_a|e]; [cbn|reflexivity].
    destruct (get_normalized_histogram hu _ _ _ _ mask_a) as [hist_a|e];
      [cbn|reflexivity].
    destruct (get_region_mask cv2 self lb) as [mask_b|e]; reflexivity.
  - unfold fixed_parameters_only.
    cbn [get_normalized_histogram compare_histograms histogram score].
    destruct (get_region_mask cv2 self la) as [mask_a|e]; [cbn|reflexivity].
    rewrite bool_decide_eq_true_2 by done.
    destruct (get_normalized_histogram hu _ _ _ _ mask_a) as [hist_a|e];
      [cbn|reflexivity].
    destruct (get_region_mask cv2 self lb) as [mask_b|e]; reflexivity.
Qed.

(** ** The properties at the smoke-test image *)

(** The smoke-test object after [remove_set((1, 2))]. *)
Lemma C5_region_set_is_labels_of_pairs_witness :
  reachable (remove_set (constructed test_region_image black_3x3 singletons) (1, 2)).1 ∧
  ((∀ r, r ∈ get_regions
             (remove_set (constructed test_region_image black_3x3 singletons)
                (1, 2)).1 ↔
         ∃ p, p ∈ get_sim_set
                    (remove_set (constructed test_region_image black_3x3 singletons)
                       (1, 2)).1 ∧
              tuple_contains r p) ∧
   (∀ r, (∀ p, p ∈ get_sim_set
                     (remove_set (constructed test_region_image black_3x3 singletons)
                        (1, 2)).1 →
               ¬ tuple_contains r p) →
         r ∉ get_regions
               (remove_set (constructed test_region_image black_3x3 singletons)
                  (1, 2)).1) ∧
   simularity_set_len
     (remove_set (constructed test_region_image black_3x3 singletons) (1, 2)).1
   = size (pair_labels
             (get_sim_set
                (remove_set (constructed test_region_image black_3x3 singletons)
                   (1, 2)).1))).
Proof.
  split.
  - apply reachable_remove_set, reachable_constructed.
  - apply C5_region_set_is_labels_of_pairs.
    apply reachable_remove_set, reachable_constructed.
Defined.

(** The object built from [[1, 2]] and its only pair. *)
Lemma C2_remove_set_state_idempotent_but_raises_witness :
  reachable (constructed one_by_two black_2x2 singletons) ∧
  (remove_set (remove_set (constructed one_by_two black_2x2 singletons) (1, 2)).1
     (1, 2)).1
  = (remove_set (constructed one_by_two black_2x2 singletons) (1, 2)).1.
Proof.
  split.
  - apply reachable_constructed.
  - apply (C2_remove_set_state_idempotent_but_raises
             (constructed one_by_two black_2x2 singletons) (1, 2)).
    apply reachable_constructed.
Defined.

(** * Further properties of the code *)

(** ** The box of a region is tight *)

Lemma foldl_min_spec x l :
  foldl Z.min x l ∈ x :: l ∧ ∀ y, y ∈ x :: l → foldl Z.min x l ≤ y.
Proof.
  revert x. induction l as [|z l IH]; intros x; cbn.
  - split; [left|]. intros y ->%list_elem_of_singleton. lia.
  - destruct (IH (Z.min x z)) as [Hin Hle]. split.
    + apply elem_of_cons in Hin as [Hin|Hin]; [|by do 2 right].
      rewrite Hin. destruct (Z.min_spec x z) as [[_ ->]|[_ ->]];
        [left|right; left].
    + intros y Hy. pose proof (Hle (Z.min x z) ltac:(left)) as Hm.
      apply elem_of_cons in Hy as [->|Hy]; [lia|].
      apply elem_of_cons in Hy as [->|Hy]; [lia|].
      apply Hle. by right.
Qed.

Lemma foldl_max_spec x l :
  foldl Z.max x l ∈ x :: l ∧ ∀ y, y ∈ x :: l → y ≤ foldl Z.max x l.
Proof.
  revert x. induction l as [|z l IH]; intros x; cbn.
  - split; [left|]. intros y ->%list_elem_of_singleton. lia.
  - destruct (IH (Z.max x z)) as [Hin Hle]. split.
    + apply elem_of_cons in Hin as [Hin|Hin]; [|by do 2 right].
      rewrite Hin. destruct (Z.max_spec x z) as [[_ ->]|[_ ->]];
        [right; left|left].
    + intros y Hy. pose proof (Hle (Z.max x z) ltac:(left)) as Hm.
      apply elem_of_cons in Hy as [->|Hy]; [lia|].
      apply elem_of_cons in Hy as [->|Hy]; [lia|].
      apply Hle. by right.
Qed.

Lemma py_min_spec l m :
  py_min l = Ok m → m ∈ l ∧ ∀ y, y ∈ l → m ≤ y.
Proof.
  destruct l as [|x l]; [done|]. intros <-%Ok_inj. apply foldl_min_spec.
Qed.

Lemma py_max_spec l m :
  py_max l = Ok m → m ∈ l ∧ ∀ y, y ∈ l → y ≤ m.
Proof.
  destruct l as [|x l]; [done|]. intros <-%Ok_inj. apply foldl_max_spec.
Qed.

Lemma create_bounding_box_inv self l box :
  create_bounding_box self l = Ok box →
  ∃ rmin cmin rmax cmax,
    py_min ((get_indices_of_region self l).*1) = Ok rmin ∧
    py_min ((get_indices_of_region self l).*2) = Ok cmin ∧
    py_max ((get_indices_of_region self l).*1) = Ok rmax ∧
    py_max ((get_indices_of_region self l).*2) = Ok cmax ∧
    box = Build_bounding_box (Label l) rmin cmin (rmax - rmin) (cmax - cmin).
Proof.
  unfold create_bounding_box.
  destruct (py_min ((get_indices_of_region self l).*1)) as [rmin|]; [cbn|done].
  destruct (py_min ((get_indices_of_region self l).*2)) as [cmin|]; [cbn|done].
  destruct (py_max ((get_indices_of_region self l).*1)) as [rmax|]; [cbn|done].
  destruct (py_max ((get_indices_of_region self l).*2)) as [cmax|]; [cbn|done].
  intros <-%Ok_inj. by exists rmin, cmin, rmax, cmax.
Qed.

Lemma elem_of_rows_of_region self l (x : Z) :
  x ∈ (get_indices_of_region self l).*1 ↔
  ∃ row col : nat,
    x = Z.of_nat row ∧ (row < height self)%nat ∧ (col < width self)%nat ∧
    item (region_image self) row col = l.
Proof.
  rewrite list_elem_of_fmap. split.
  - intros ([x' y] & -> & Hin).
    apply elem_of_get_indices_of_region in Hin as (row & col & -> & -> & ? & ? & ?).
    by exists row, col.
  - intros (row & col & -> & ? & ? & ?).
    exists (Z.of_nat row, Z.of_nat col). split; [done|].
    apply elem_of_get_indices_of_region. by exists row, col.
Qed.

Lemma elem_of_cols_of_region self l (y : Z) :
  y ∈ (get_indices_of_region self l).*2 ↔
  ∃ row col : nat,
    y = Z.of_nat col ∧ (row < height self)%nat ∧ (col < width self)%nat ∧
    item (region_image self) row col = l.
Proof.
  rewrite list_elem_of_fmap. split.
  - intros ([x y'] & -> & Hin).
    apply elem_of_get_indices_of_region in Hin as (row & col & -> & -> & ? & ? & ?).
    by exists row, col.
  - intros (row & col & -> & ? & ? & ?).
    exists (Z.of_nat row, Z.of_nat col). split; [done|].
    apply elem_of_get_indices_of_region. by exists row, col.
Qed.

(** X1: on a label that occurs, [create_bounding_box] returns a box tagged
    with the label whose rows and columns run from the smallest to the
    largest row and column of the region: every pixel of the region lies
    between [row_start] and [row_start + height] and between [col_start] and
    [col_start + width], both ends included, and each of the four edges
    holds a pixel of the region. *)
Theorem X1_create_bounding_box_tight (self : simularity_set) (l : Z) :
  occurs self l →
  ∃ box,
    create_bounding_box self l = Ok box ∧
    region box = Label l ∧
    (∀ row col, pixel_of self l row col →
       row_start box ≤ Z.of_nat row ≤ row_start box + bb_height box ∧
       col_start box ≤ Z.of_nat col ≤ col_start box + bb_width box) ∧
    (∃ row col, pixel_of self l row col ∧ Z.of_nat row = row_start box) ∧
    (∃ row col, pixel_of self l row col ∧
                Z.of_nat row = row_start box + bb_height box) ∧
    (∃ row col, pixel_of self l row col ∧ Z.of_nat col = col_start box) ∧
    (∃ row col, pixel_of self l row col ∧
                Z.of_nat col = col_start box + bb_width box).
Proof.
  intros Hocc.
  destruct (create_bounding_box_occurs self l Hocc) as (box & Hbox & _).
  exists box. split; [exact Hbox|].
  apply create_bounding_box_inv in Hbox
    as (rmin & cmin & rmax & cmax & Hrmin & Hcmin & Hrmax & Hcmax & ->).
  apply py_min_spec in Hrmin as [Hrmin_in Hrmin_le].
  apply py_min_spec in Hcmin as [Hcmin_in Hcmin_le].
  apply py_max_spec in Hrmax as [Hrmax_in Hrmax_le].
  apply py_max_spec in Hcmax as [Hcmax_in Hcmax_le].
  cbn [region row_start col_start bb_height bb_width].
  split; [done|]. split.
  - intros row col (Hr & Hc & Hl).
    assert (Z.of_nat row ∈ (get_indices_of_region self l).*1) as H1
      by (apply elem_of_rows_of_region; by exists row, col).
    assert (Z.of_nat col ∈ (get_indices_of_region self l).*2) as H2
      by (apply elem_of_cols_of_region; by exists row, col).
    specialize (Hrmin_le _ H1). specialize (Hrmax_le _ H1).
    specialize (Hcmin_le _ H2). specialize (Hcmax_le _ H2). lia.
  - apply elem_of_rows_of_region in Hrmin_in as (r1 & c1 & -> & ? & ? & ?).
    apply elem_of_rows_of_region in Hrmax_in as (r2 & c2 & -> & ? & ? & ?).
    apply elem_of_cols_of_region in Hcmin_in as (r3 & c3 & -> & ? & ? & ?).
    apply elem_of_cols_of_region in Hcmax_in as (r4 & c4 & -> & ? & ? & ?).
    unfold pixel_of. split; [by exists r1, c1|]. split; [exists r2, c2|].
    + split; [done|lia].
    + split; [by exists r3, c3|]. exists r4, c4. split; [done|lia].
Qed.

(** Region 4 of the smoke-test image: rows 1 to 2, columns 0 to 1. *)
Lemma X1_create_bounding_box_tight_witness :
  occurs (constructed test_region_image black_3x3 singletons) 4 ∧
  ∃ box,
    create_bounding_box (constructed test_region_image black_3x3 singletons) 4
    = Ok box ∧
    region box = Label 4.
Proof.
  assert (occurs (constructed test_region_image black_3x3 singletons) 4) as Hocc.
  { exists 1%nat, 0%nat. split; [vm_compute; lia|].
    split; [vm_compute; lia|]. vm_compute. reflexivity. }
  split; [exact Hocc|].
  destruct (X1_create_bounding_box_tight _ 4 Hocc) as (box & Hbox & Htag & _).
  exists box. split; [exact Hbox|exact Htag].
Defined.

(** ** The coordinates of a region *)

Lemma elem_of_guarded_singleton {A : Type} (P : Prop) `{!Decision P} (z p : A) :
  p ∈ (if bool_decide P then [z] else []) → p = z.
Proof.
  case_bool_decide; [by intros ?%list_elem_of_singleton|by intros ?%elem_of_nil].
Qed.

(** X2: [get_indices_of_region] lists exactly the pixels of the image that
    carry the label, as (row, col), each of them once. *)
Theorem X2_get_indices_of_region_exact (self : simularity_set) (l : Z) :
  NoDup (get_indices_of_region self l) ∧
  ∀ x y : Z,
    (x, y) ∈ get_indices_of_region self l ↔
    ∃ row col : nat,
      x = Z.of_nat row ∧ y = Z.of_nat col ∧ pixel_of self l row col.
Proof.
  split; [|intros x y; apply elem_of_get_indices_of_region].
  unfold get_indices_of_region.
  apply NoDup_bind; [| |apply NoDup_seq].
  - intros r1 r2 [x y] _ _
      (c1 & Hin1 & _)%list_elem_of_bind (c2 & Hin2 & _)%list_elem_of_bind.
    apply elem_of_guarded_singleton in Hin1, Hin2. simplify_eq. lia.
  - intros row _. apply NoDup_bind; [| |apply NoDup_seq].
    + intros c1 c2 [x y] _ _ Hin1 Hin2.
      apply elem_of_guarded_singleton in Hin1, Hin2. simplify_eq. lia.
    + intros col _. case_bool_decide; [apply NoDup_singleton|apply NoDup_nil_2].
Qed.

(** ** What construction leaves in the object *)

Lemma constructed_unfold img im ds :
  ∃ m,
    constructed img im ds
    = with_bounding_boxes (find_neighboring_regions (fresh img im ds)) m ∧
    ∀ r, (r ∈ region_set (find_neighboring_regions (fresh img im ds)) →
          ∃ box, create_bounding_box (fresh img im ds) r = Ok box ∧
                 m !! r = Some box) ∧
         (r ∉ region_set (find_neighboring_regions (fresh img im ds)) →
          m !! r = None).
Proof.
  destruct (simularity_set_init_returns img im ds) as (m & Hinit & Hm).
  exists m. split; [|exact Hm]. unfold constructed. by rewrite Hinit.
Qed.

Lemma constructed_frame img im ds :
  same_frame (fresh img im ds) (constructed img im ds).
Proof.
  destruct (constructed_unfold img im ds) as (m & -> & _).
  rewrite find_neighboring_regions_edges.
  apply (add_edges_frame (fresh img im ds)).
Qed.

Lemma constructed_recorded img im ds a b :
  recorded (constructed img im ds) a b ↔ a ≠ b ∧ regions_touch img a b.
Proof.
  destruct (constructed_unfold img im ds) as (m & -> & _).
  change (recorded (with_bounding_boxes ?s m) a b) with (recorded s a b).
  rewrite find_neighboring_regions_edges, recorded_add_edges.
  rewrite <- image_edges_touch. unfold recorded, fresh.
  cbn [sim_set region_image height width]. rewrite !elem_of_empty. tauto.
Qed.

Lemma constructed_live_invariant img im ds :
  live_invariant (constructed img im ds).
Proof.
  by destruct (constructed_invariants img im ds _
                 (simularity_set_init_constructed img im ds)).
Qed.

Lemma occurs_constructed img im ds l :
  occurs (constructed img im ds) l ↔ has_label img l.
Proof.
  destruct (constructed_frame img im ds) as (E1 & _ & _ & E2 & E3 & _).
  unfold occurs, has_label, in_bounds. rewrite E1, E2, E3. cbn. split.
  - intros (row & col & ? & ? & ?). by exists (row, col).
  - intros ([row col] & [? ?] & ?). by exists row, col.
Qed.

(** X3: the dict of boxes that construction fills has exactly the regions
    of the region set as keys, and the box stored for a region is the one
    [create_bounding_box] computes for it on demand. *)
Theorem X3_cached_boxes_after_construction
    (img : ndarray) (im : color_image) (ds : disjoint_set_t) :
  ∃ self,
    simularity_set_init img im ds = Ok self ∧
    dom (bounding_boxes self) = region_set self ∧
    ∀ r box, bounding_boxes self !! r = Some box ↔
             r ∈ region_set self ∧ create_bounding_box self r = Ok box.
Proof.
  exists (constructed img im ds).
  split; [apply simularity_set_init_constructed|].
  pose proof (constructed_frame img im ds) as Hfr.
  assert (∀ r, create_bounding_box (constructed img im ds) r
               = create_bounding_box (fresh img im ds) r) as Hbox
    by (intros r; by apply create_bounding_box_frame).
  destruct (constructed_unfold img im ds) as (m & E & Hm).
  rewrite E in *.
  change (bounding_boxes (with_bounding_boxes ?s m)) with m.
  change (region_set (with_bounding_boxes ?s m)) with (region_set s).
  split.
  - apply set_eq. intros r. rewrite elem_of_dom. destruct (Hm r) as [Hin Hout].
    split.
    + intros [box Hbx].
      destruct (decide (r ∈ region_set
                              (find_neighboring_regions (fresh img im ds))))
        as [|Hn]; [done|]. rewrite (Hout Hn) in Hbx. discriminate Hbx.
    + intros (box & _ & ->)%Hin. by eexists.
  - intros r box. rewrite Hbox. destruct (Hm r) as [Hin Hout]. split.
    + intros Hbx.
      destruct (decide (r ∈ region_set
                              (find_neighboring_regions (fresh img im ds))))
        as [Hr|Hn]; [|rewrite (Hout Hn) in Hbx; discriminate Hbx].
      split; [done|]. destruct (Hin Hr) as (box' & Hb' & Hl). congruence.
    + intros [Hr Hb]. destruct (Hin Hr) as (box' & Hb' & Hl). congruence.
Qed.

Lemma constructed_cache_consistent img im ds :
  cache_consistent (constructed img im ds).
Proof.
  intros r box Hbx.
  pose proof (constructed_frame img im ds) as Hfr.
  rewrite (create_bounding_box_frame _ _ r Hfr).
  destruct (constructed_unfold img im ds) as (m & E & Hm).
  rewrite E in Hbx. change (m !! r = Some box) in Hbx.
  destruct (Hm r) as [Hin Hout].
  destruct (decide (r ∈ region_set (find_neighboring_regions (fresh img im ds))))
    as [Hr|Hn]; [|rewrite (Hout Hn) in Hbx; discriminate Hbx].
  destruct (Hin Hr) as (box' & Hb' & Hl). congruence.
Qed.

(** X4: [add_set] and [remove_set] never touch the label image, the colour
    image, the union-find, the dimensions or the dict of boxes; so in every
    reachable object a cached box is still the box [create_bounding_box]
    computes on demand. *)
Theorem X4_cache_stays_consistent (self : simularity_set) :
  reachable self →
  (∀ a b, same_frame self (add_set self a b) ∧
          bounding_boxes (add_set self a b) = bounding_boxes self) ∧
  (∀ s, same_frame self (remove_set self s).1 ∧
        bounding_boxes (remove_set self s).1 = bounding_boxes self) ∧
  ∀ r box, bounding_boxes self !! r = Some box →
           create_bounding_box self r = Ok box.
Proof.
  intros Hreach.
  split; [intros a b; split;
          [apply add_set_frame|apply add_set_bounding_boxes]|].
  split; [intros s; split;
          [apply remove_set_frame|apply remove_set_bounding_boxes]|].
  induction Hreach as [img im ds self Hinit|self a b _ IH|self s _ IH].
  - rewrite simularity_set_init_constructed in Hinit.
    apply Ok_inj in Hinit. subst self. apply constructed_cache_consistent.
  - intros r box. rewrite add_set_bounding_boxes.
    rewrite (create_bounding_box_frame _ _ r (add_set_frame self a b)).
    apply IH.
  - intros r box. rewrite remove_set_bounding_boxes.
    rewrite (create_bounding_box_frame _ _ r (remove_set_frame self s)).
    apply IH.
Qed.

(** The smoke-test object after one removal. *)
Lemma X4_cache_stays_consistent_witness :
  reachable (remove_set (constructed test_region_image black_3x3 singletons) (1, 2)).1 ∧
  ∀ r box,
    bounding_boxes
      (remove_set (constructed test_region_image black_3x3 singletons) (1, 2)).1
    !! r = Some box →
    create_bounding_box
      (remove_set (constructed test_region_image black_3x3 singletons) (1, 2)).1 r
    = Ok box.
Proof.
  split.
  - apply reachable_remove_set, reachable_constructed.
  - apply X4_cache_stays_consistent.
    apply reachable_remove_set, reachable_constructed.
Defined.
(** ** Which labels become regions *)

Lemma constructed_region_touches img im ds r :
  r ∈ region_set (constructed img im ds) ↔
  ∃ b, b ≠ r ∧ regions_touch img r b.
Proof.
  rewrite (constructed_live_invariant img im ds r). split.
  - intros ([x y] & Hp & [Hc|Hc]); cbn in Hc; subst r.
    + assert (recorded (constructed img im ds) x y) as Hrec by (by left).
      apply constructed_recorded in Hrec as [Hne Ht]. exists y. by split.
    + assert (recorded (constructed img im ds) y x) as Hrec by (by right).
      apply constructed_recorded in Hrec as [Hne Ht]. exists x. by split.
  - intros (b & Hne & Ht).
    assert (recorded (constructed img im ds) r b) as [Hin|Hin]
      by (apply constructed_recorded; by split).
    + exists (r, b). split; [done|]. by left.
    + exists (b, r). split; [done|]. by right.
Qed.

(** Between a pixel labelled [a] and a pixel labelled otherwise there is a
    pair of neighbouring pixels, one labelled [a] and one not. *)
Lemma label_boundary img h w a (q : nat * nat) :
  in_bounds h w q → item img q.1 q.2 ≠ a →
  ∀ n (p : nat * nat),
    ((p.1 - q.1) + (q.1 - p.1) + (p.2 - q.2) + (q.2 - p.2) ≤ n)%nat →
    in_bounds h w p → item img p.1 p.2 = a →
    ∃ p' q', in_bounds h w p' ∧ in_bounds h w q' ∧ adjacent8 p' q' ∧
             item img p'.1 p'.2 = a ∧ item img q'.1 q'.2 ≠ a.
Proof.
  intros Hq Hqa. induction n as [|n IH]; intros [r c] Hd Hp Hpa.
  - destruct q as [r' c']. cbn in *.
    assert (r = r' ∧ c = c') as [-> ->] by lia. done.
  - destruct q as [r' c']. unfold in_bounds in *. cbn in *.
    assert (∃ p1 : nat * nat,
              ((p1.1 - r') + (r' - p1.1) + (p1.2 - c') + (c' - p1.2) ≤ n)%nat ∧
              ((p1.1 < h)%nat ∧ (p1.2 < w)%nat) ∧ adjacent8 (r, c) p1)
      as (p1 & Hd1 & Hb1 & Hadj).
    { unfold adjacent8. cbn.
      destruct (decide (r < r')%nat); [exists (S r, c); cbn; rewrite pair_eq; lia|].
      destruct (decide (r' < r)%nat); [exists (r - 1, c)%nat; cbn; rewrite pair_eq; lia|].
      destruct (decide (c < c')%nat); [exists (r, S c); cbn; rewrite pair_eq; lia|].
      destruct (decide (c' < c)%nat); [exists (r, c - 1)%nat; cbn; rewrite pair_eq; lia|].
      assert (r = r' ∧ c = c') as [-> ->] by lia. done. }
    destruct (decide (item img p1.1 p1.2 = a)) as [Ha|Hna].
    + by apply (IH p1).
    + exists (r, c), p1. cbn. tauto.
Qed.

(** X5: after construction a label is in the region set exactly when a
    pixel with that label has a neighbour, in 8-connectivity, with another
    label. *)
Theorem X5_regions_are_labels_with_a_different_neighbour
    (img : ndarray) (im : color_image) (ds : disjoint_set_t) :
  ∃ self,
    simularity_set_init img im ds = Ok self ∧
    ∀ r, r ∈ get_regions self ↔ ∃ b, b ≠ r ∧ regions_touch img r b.
Proof.
  exists (constructed img im ds).
  split; [apply simularity_set_init_constructed|].
  apply constructed_region_touches.
Qed.

(** X6: when the label image holds at least two different labels, the
    region set after construction is the set of all labels of the image,
    and each of them has its box cached. *)
Theorem X6_all_labels_are_regions
    (img : ndarray) (im : color_image) (ds : disjoint_set_t) (a b : Z) :
  has_label img a → has_label img b → a ≠ b →
  ∃ self,
    simularity_set_init img im ds = Ok self ∧
    (∀ r, r ∈ get_regions self ↔ has_label img r) ∧
    (∀ r, has_label img r → is_Some (bounding_boxes self !! r)).
Proof.
  intros Ha Hb Hne.
  exists (constructed img im ds).
  split; [apply simularity_set_init_constructed|].
  assert (∀ r, r ∈ region_set (constructed img im ds) ↔ has_label img r) as Hreg.
  { intros r. rewrite constructed_region_touches. split.
    - intros (c & _ & p & q & Hp & _ & _ & Hl & _). by exists p.
    - intros (p & Hp & Hl).
      assert (∃ q, in_bounds (shape img).1 (shape img).2 q ∧
                   item img q.1 q.2 ≠ r) as (q & Hq & Hqr).
      { destruct Ha as (pa & ? & ?), Hb as (pb & ? & ?).
        destruct (decide (r = a)) as [->|?]; [exists pb|exists pa];
          split; congruence. }
      destruct (label_boundary img _ _ r q Hq Hqr _ p (le_n _) Hp Hl)
        as (p' & q' & Hp' & Hq' & Hadj & Hl' & Hnl').
      exists (item img q'.1 q'.2). split; [done|]. by exists p', q'. }
  split; [exact Hreg|].
  intros r Hr%Hreg.
  destruct (constructed_unfold img im ds) as (m & E & Hm).
  rewrite E in *. destruct (Hm r) as [Hin _].
  destruct (Hin Hr) as (box & _ & Hl). by exists box.
Qed.

(** The smoke-test image has the labels 1 and 2. *)
Lemma X6_all_labels_are_regions_witness :
  has_label test_region_image 1 ∧ has_label test_region_image 2 ∧ 1 ≠ 2 ∧
  ∃ self,
    simularity_set_init test_region_image black_3x3 singletons = Ok self ∧
    ∀ r, r ∈ get_regions self ↔ has_label test_region_image r.
Proof.
  assert (has_label test_region_image 1) as H1.
  { exists (0, 0)%nat. split; [split; vm_compute; lia|reflexivity]. }
  assert (has_label test_region_image 2) as H2.
  { exists (0, 1)%nat. split; [split; vm_compute; lia|reflexivity]. }
  assert (1 ≠ 2) as Hne by lia.
  split; [exact H1|]. split; [exact H2|]. split; [exact Hne|].
  destruct (X6_all_labels_are_regions test_region_image black_3x3 singletons
              1 2 H1 H2 Hne) as (self & Hinit & Hreg & _).
  exists self. split; [exact Hinit|exact Hreg].
Defined.

(** X7: when all pixels of the label image carry the same label (also when
    the image has no pixel at all), construction returns an object with no
    pair, no region and no cached box. *)
Theorem X7_uniform_image_has_no_region
    (img : ndarray) (im : color_image) (ds : disjoint_set_t) :
  (∀ a b, has_label img a → has_label img b → a = b) →
  ∃ self,
    simularity_set_init img im ds = Ok self ∧
    get_sim_set self = ∅ ∧ get_regions self = ∅ ∧
    simularity_set_len self = 0%nat ∧ bounding_boxes self = ∅.
Proof.
  intros Huni.
  exists (constructed img im ds).
  split; [apply simularity_set_init_constructed|].
  assert (region_set (constructed img im ds) = ∅) as Hreg.
  { apply set_eq. intros r. rewrite constructed_region_touches, elem_of_empty.
    split; [|done]. intros (b & Hne & p & q & Hp & Hq & _ & Hl & Hl').
    apply Hne, Huni; [by exists q|by exists p]. }
  assert (sim_set (constructed img im ds) = ∅) as Hsim.
  { apply set_eq. intros [x y]. rewrite elem_of_empty. split; [|done].
    intros Hin.
    assert (x ∈ region_set (constructed img im ds)) as Hx.
    { apply constructed_live_invariant. exists (x, y). split; [done|]. by left. }
    rewrite Hreg in Hx. by apply elem_of_empty in Hx. }
  unfold get_sim_set, get_regions, simularity_set_len.
  split; [exact Hsim|]. split; [exact Hreg|].
  split; [by rewrite Hreg, size_empty|].
  destruct (constructed_unfold img im ds) as (m & E & Hm).
  rewrite E in *.
  change (region_set (with_bounding_boxes ?s m)) with (region_set s) in Hreg.
  apply map_eq. intros r. rewrite lookup_empty.
  destruct (Hm r) as [_ Hout]. apply Hout. rewrite Hreg. apply not_elem_of_empty.
Qed.

(** A 2 x 2 image labelled 7 everywhere. *)
Lemma X7_uniform_image_has_no_region_witness :
  (∀ a b, has_label uniform_2x2 a → has_label uniform_2x2 b → a = b) ∧
  ∃ self,
    simularity_set_init uniform_2x2 black_2x2 singletons = Ok self ∧
    get_sim_set self = ∅ ∧ get_regions self = ∅.
Proof.
  assert (∀ a, has_label uniform_2x2 a → a = 7) as H7.
  { intros a ([row col] & [Hr Hc] & <-). cbn in Hr, Hc.
    destruct row as [|[|row]], col as [|[|col]]; try lia; reflexivity. }
  assert (∀ a b, has_label uniform_2x2 a → has_label uniform_2x2 b → a = b)
    as Huni by (intros a b Ha%H7 Hb%H7; congruence).
  split; [exact Huni|].
  destruct (X7_uniform_image_has_no_region uniform_2x2 black_2x2 singletons Huni)
    as (self & Hinit & Hsim & Hreg & _).
  exists self. split; [exact Hinit|]. split; [exact Hsim|exact Hreg].
Defined.
(** ** An image without pixels *)

(** X8: when the label image has no rows or no columns, construction still
    returns, with [image_size] 0; on that object every [s_size] call raises
    [ZeroDivisionError] and every [s_fill] call raises [ValueError] (from
    the box of the first region, before any division). *)
Theorem X8_empty_image
    (img : ndarray) (im : color_image) (ds : disjoint_set_t) :
  (shape img).1 = 0%nat ∨ (shape img).2 = 0%nat →
  ∃ self,
    simularity_set_init img im ds = Ok self ∧
    image_size self = 0 ∧
    ∀ region_a region_b,
      s_size self region_a region_b = Raise ZeroDivisionError ∧
      s_fill self region_a region_b = Raise ValueError.
Proof.
  intros Hempty.
  exists (constructed img im ds).
  split; [apply simularity_set_init_constructed|].
  destruct (constructed_frame img im ds) as (_ & _ & _ & _ & _ & E6).
  assert (image_size (constructed img im ds) = 0) as Hsize.
  { rewrite E6. unfold fresh. cbn [image_size].
    destruct Hempty as [-> | ->]; lia. }
  split; [exact Hsize|]. intros region_a region_b.
  split; [by apply s_size_empty_image|].
  assert (∀ l, create_bounding_box (constructed img im ds) l = Raise ValueError)
    as Hbox.
  { intros l. apply create_bounding_box_absent.
    rewrite occurs_constructed. intros ([row col] & [Hr Hc] & _).
    cbn [fst snd] in Hr, Hc. lia. }
  unfold s_fill. rewrite !Hbox. reflexivity.
Qed.

(** The image without rows. *)
Lemma X8_empty_image_witness :
  ((shape no_rows).1 = 0%nat ∨ (shape no_rows).2 = 0%nat) ∧
  ∃ self,
    simularity_set_init no_rows black_2x2 singletons = Ok self ∧
    image_size self = 0.
Proof.
  assert ((shape no_rows).1 = 0%nat ∨ (shape no_rows).2 = 0%nat) as H
    by (left; reflexivity).
  split; [exact H|].
  destruct (X8_empty_image no_rows black_2x2 singletons H)
    as (self & Hinit & Hsize & _).
  exists self. split; [exact Hinit|exact Hsize].
Defined.

(** ** How [add_set] and [remove_set] compose *)

Lemma simularity_set_eq self self' :
  same_frame self self' →
  bounding_boxes self' = bounding_boxes self →
  sim_set self' = sim_set self →
  region_set self' = region_set self →
  self' = self.
Proof.
  destruct self, self'. unfold same_frame. cbn.
  intros (-> & -> & -> & -> & -> & ->) -> -> ->. reflexivity.
Qed.

(** X9: adding a pair a second time, in the same or in the reverse order,
    changes nothing, and adding a pair of a label with itself changes
    nothing either. *)
Theorem X9_add_set_idempotent (self : simularity_set) (a b : Z) :
  add_set (add_set self a b) a b = add_set self a b ∧
  add_set (add_set self a b) b a = add_set self a b ∧
  add_set self a a = self.
Proof.
  split; [|split; [|apply add_set_same]].
  - apply simularity_set_eq;
      [apply add_set_frame|apply add_set_bounding_boxes|..].
    + apply set_eq. intros p. rewrite !elem_of_sim_set_add_set. naive_solver.
    + apply set_eq. intros r. rewrite !elem_of_region_set_add_set. naive_solver.
  - apply simularity_set_eq;
      [apply add_set_frame|apply add_set_bounding_boxes|..].
    + apply set_eq. intros p. rewrite !elem_of_sim_set_add_set.
      destruct (decide ((b, a) ∈ sim_set self)); naive_solver.
    + apply set_eq. intros r. rewrite !elem_of_region_set_add_set. naive_solver.
Qed.

Lemma remove_set_pair self s : 
  remove_set self s = ((remove_set self s).1, (remove_set self s).2).
Proof. by destruct (remove_set self s). Qed.

(** X10: in a reachable object, adding a pair of two distinct labels that
    are both outside the region set and removing it again, in the order it
    was added or in the reverse order, returns normally and gives the object
    back as it was. *)
Theorem X10_add_then_remove (self : simularity_set) (a b : Z) :
  reachable self → a ≠ b →
  a ∉ region_set self → b ∉ region_set self →
  remove_set (add_set self a b) (a, b) = (self, Ok ()) ∧
  remove_set (add_set self a b) (b, a) = (self, Ok ()).
Proof.
  intros Hreach Hne Ha Hb.
  destruct (reachable_invariants self Hreach) as [Hinv Hord].
  pose proof (add_set_live_invariant self a b Hinv) as Hinv1.
  pose proof (add_set_one_order self a b Hord) as Hord1.
  assert (∀ p, p ∈ sim_set self → p ≠ (a, b) ∧ p ≠ (b, a)) as Hfresh.
  { intros p Hp. split; intros ->; apply Ha, Hinv; eexists;
      (split; [exact Hp|]); unfold tuple_contains; cbn; tauto. }
  assert (∀ s, s = (a, b) ∨ s = (b, a) →
               remove_set (add_set self a b) s = (self, Ok ())) as Hboth.
  { intros s Hs. rewrite remove_set_pair. f_equal.
    - assert (sim_set (remove_set (add_set self a b) s).1 = sim_set self) as Hsim.
      { rewrite sim_set_remove_set. apply set_eq. intros p.
        rewrite !elem_of_difference, !elem_of_singleton,
          elem_of_sim_set_add_set.
        destruct Hs as [-> | ->]; cbn; split.
        - intros [[[?|(_ & _ & ->)] ?] ?]; done.
        - intros Hp. destruct (Hfresh p Hp). tauto.
        - intros [[[?|(_ & _ & ->)] ?] ?]; done.
        - intros Hp. destruct (Hfresh p Hp). tauto. }
      apply simularity_set_eq.
      + eapply same_frame_trans; [apply add_set_frame|apply remove_set_frame].
      + by rewrite remove_set_bounding_boxes, add_set_bounding_boxes.
      + exact Hsim.
      + rewrite (live_invariant_pair_labels _
                   (remove_set_live_invariant _ s Hinv1)).
        by rewrite Hsim, <- live_invariant_pair_labels.
    - apply remove_set_returns; [done|done|..];
        apply elem_of_region_set_add_set; right;
        destruct Hs as [-> | ->]; cbn; tauto. }
  split; apply Hboth; tauto.
Qed.

(** Labels 8 and 9 are not in the smoke-test image. *)
Lemma X10_add_then_remove_witness :
  reachable (constructed test_region_image black_3x3 singletons) ∧ 8 ≠ 9 ∧
  (8 ∉ region_set (constructed test_region_image black_3x3 singletons)) ∧
  (9 ∉ region_set (constructed test_region_image black_3x3 singletons)) ∧
  remove_set (add_set (constructed test_region_image black_3x3 singletons) 8 9)
    (8, 9)
  = (constructed test_region_image black_3x3 singletons, Ok ()).
Proof.
  assert (8 ∉ region_set (constructed test_region_image black_3x3 singletons))
    as H8 by (intros Hin; vm_compute in Hin; discriminate Hin).
  assert (9 ∉ region_set (constructed test_region_image black_3x3 singletons))
    as H9 by (intros Hin; vm_compute in Hin; discriminate Hin).
  assert (8 ≠ 9) as Hne by lia.
  split; [apply reachable_constructed|]. split; [exact Hne|].
  split; [exact H8|]. split; [exact H9|].
  destruct (X10_add_then_remove
              (constructed test_region_image black_3x3 singletons) 8 9
              (reachable_constructed _ _ _) Hne H8 H9) as [H _].
  exact H.
Defined.

(** X11: in a reachable object [remove_set] does not depend on the order in
    which the pair is given: [(a, b)] and [(b, a)] leave the same object and
    end the same way. *)
Theorem X11_remove_set_either_order (self : simularity_set) (a b : Z) :
  reachable self →
  remove_set self (a, b) = remove_set self (b, a).
Proof.
  intros Hreach.
  destruct (reachable_invariants self Hreach) as [Hinv Hord].
  destruct (decide (a ∈ region_set self ∧ b ∈ region_set self)) as [[Ha Hb]|Hnot].
  - rewrite (remove_set_pair self (a, b)), (remove_set_pair self (b, a)).
    f_equal; [|by rewrite !remove_set_returns].
    assert (sim_set (remove_set self (a, b)).1
            = sim_set (remove_set self (b, a)).1) as Hsim.
    { rewrite !sim_set_remove_set. cbn. set_solver. }
    apply simularity_set_eq.
    + destruct (remove_set_frame self (a, b)) as (?&?&?&?&?&?),
        (remove_set_frame self (b, a)) as (?&?&?&?&?&?).
      repeat split; congruence.
    + by rewrite !remove_set_bounding_boxes.
    + exact Hsim.
    + rewrite (live_invariant_pair_labels _
                 (remove_set_live_invariant _ (a, b) Hinv)).
      rewrite (live_invariant_pair_labels _
                 (remove_set_live_invariant _ (b, a) Hinv)).
      by rewrite Hsim.
  - rewrite !remove_set_raises; [done|done|cbn; tauto|done|cbn; tauto].
Qed.

(** The smoke-test object and the pair (4, 2), stored in that order. *)
Lemma X11_remove_set_either_order_witness :
  reachable (constructed test_region_image black_3x3 singletons) ∧
  remove_set (constructed test_region_image black_3x3 singletons) (4, 2)
  = remove_set (constructed test_region_image black_3x3 singletons) (2, 4).
Proof.
  split; [apply reachable_constructed|].
  exact (X11_remove_set_either_order
           (constructed test_region_image black_3x3 singletons) 4 2
           (reachable_constructed _ _ _)).
Defined.

(** X12: in a reachable object, removing a pair that is recorded (in either
    order) returns normally; afterwards the adjacency set holds the other
    pairs and exactly one pair less, and no label besides the two of the
    pair enters or leaves the region set. *)
Theorem X12_remove_recorded_pair (self : simularity_set) (a b : Z) :
  reachable self → recorded self a b →
  (remove_set self (a, b)).2 = Ok () ∧
  (∀ p, p ∈ sim_set (remove_set self (a, b)).1 ↔
        p ∈ sim_set self ∧ p ≠ (a, b) ∧ p ≠ (b, a)) ∧
  S (size (sim_set (remove_set self (a, b)).1)) = size (sim_set self) ∧
  (∀ r, r ≠ a → r ≠ b →
        r ∈ region_set (remove_set self (a, b)).1 ↔ r ∈ region_set self).
Proof.
  intros Hreach Hrec.
  destruct (reachable_invariants self Hreach) as [Hinv Hord].
  assert (a ∈ region_set self ∧ b ∈ region_set self) as [Ha Hb].
  { split; apply Hinv; destruct Hrec as [Hin|Hin];
      (eexists; split; [exact Hin|]); unfold tuple_contains; cbn; tauto. }
  split; [by apply remove_set_returns|].
  split; [intros p; rewrite sim_set_remove_set; cbn; set_solver|].
  split.
  - rewrite sim_set_remove_set. cbn [fst snd].
    destruct Hrec as [Hin|Hin]; destruct (Hord _ _ Hin) as [Hne Hrev].
    + replace (sim_set self ∖ {[(a, b)]} ∖ {[(b, a)]})
        with (sim_set self ∖ {[(a, b)]}) by set_solver.
      rewrite size_difference by set_solver.
      rewrite size_singleton.
      assert (size (sim_set self) ≠ 0)%nat
        by (intros ?%size_empty_inv; set_solver).
      lia.
    + replace (sim_set self ∖ {[(a, b)]} ∖ {[(b, a)]})
        with (sim_set self ∖ {[(b, a)]}) by set_solver.
      rewrite size_difference by set_solver.
      rewrite size_singleton.
      assert (size (sim_set self) ≠ 0)%nat
        by (intros ?%size_empty_inv; set_solver).
      lia.
  - intros r Hra Hrb.
    rewrite (remove_set_live_invariant self (a, b) Hinv r), (Hinv r).
    rewrite sim_set_remove_set.
    change (sim_set self ∖ {[(a, b)]} ∖ {[((a, b).2, (a, b).1)]})
      with (sim_set (without_pair self (a, b))).
    by apply other_pairs_survive.
Qed.

(** The smoke-test object and its pair (1, 2). *)
Lemma X12_remove_recorded_pair_witness :
  reachable (constructed test_region_image black_3x3 singletons) ∧
  recorded (constructed test_region_image black_3x3 singletons) 1 2 ∧
  (remove_set (constructed test_region_image black_3x3 singletons) (1, 2)).2
  = Ok ().
Proof.
  assert (recorded (constructed test_region_image black_3x3 singletons) 1 2)
    as Hrec by (left; vm_compute; reflexivity).
  split; [apply reachable_constructed|]. split; [exact Hrec|].
  destruct (X12_remove_recorded_pair
              (constructed test_region_image black_3x3 singletons) 1 2
              (reachable_constructed _ _ _) Hrec) as [H _].
  exact H.
Defined.

(** X13: in every reachable object a stored pair joins two distinct labels
    and its reverse is not stored: the adjacency set holds each unordered
    pair at most once. *)
Theorem X13_pairs_stored_once (self : simularity_set) :
  reachable self →
  ∀ a b, (a, b) ∈ get_sim_set self → a ≠ b ∧ (b, a) ∉ get_sim_set self.
Proof. intros [_ Hord]%reachable_invariants. exact Hord. Qed.

(** The smoke-test object after adding the reverse of a stored pair. *)
Lemma X13_pairs_stored_once_witness :
  reachable (add_set (constructed test_region_image black_3x3 singletons) 2 1) ∧
  ∀ a b,
    (a, b) ∈ get_sim_set
               (add_set (constructed test_region_image black_3x3 singletons) 2 1) →
    a ≠ b.
Proof.
  split; [apply reachable_add_set, reachable_constructed|].
  intros a b Hin.
  destruct (X13_pairs_stored_once
              (add_set (constructed test_region_image black_3x3 singletons) 2 1)
              (reachable_add_set _ 2 1 (reachable_constructed _ _ _))
              a b Hin) as [H _].
  exact H.
Defined.

(** X14: [remove_set] never adds a pair or a region, however it ends, and
    [add_set] never removes one. *)
Theorem X14_remove_shrinks_add_grows (self : simularity_set) (s : Z * Z) (a b : Z) :
  sim_set (remove_set self s).1 ⊆ sim_set self ∧
  region_set (remove_set self s).1 ⊆ region_set self ∧
  sim_set self ⊆ sim_set (add_set self a b) ∧
  region_set self ⊆ region_set (add_set self a b).
Proof.
  split; [rewrite sim_set_remove_set; set_solver|].
  split.
  - rewrite remove_set_unfold. unfold set_remove.
    repeat (case_match; simplify_eq; cbn; try set_solver).
  - split.
    + intros p Hp. apply elem_of_sim_set_add_set. by left.
    + intros r Hr. apply elem_of_region_set_add_set. by left.
Qed.

(** ** What [combine_bounding_boxes] does guarantee *)

(** X15: the combined box carries the tuple of the two tags, contains the
    first box on both axes and the second box on the row axis, and starts no
    later than the second box on the column axis; when both boxes have
    non-negative extents so has the combined box, its area is at least the
    area of the first box, and [len] of it returns that area when the area
    is at most [sys.maxsize] and raises [OverflowError] when it is larger
    (never [ValueError]). *)
Theorem X15_combine_bounding_boxes_covers_first (box_a box_b : bounding_box) :
  region (combine_bounding_boxes box_a box_b)
  = Tuple (region box_a) (region box_b) ∧
  contains_box (combine_bounding_boxes box_a box_b) box_a ∧
  row_start (combine_bounding_boxes box_a box_b) ≤ row_start box_b ∧
  row_start box_b + bb_height box_b
  ≤ row_start (combine_bounding_boxes box_a box_b)
    + bb_height (combine_bounding_boxes box_a box_b) ∧
  col_start (combine_bounding_boxes box_a box_b) ≤ col_start box_b ∧
  (well_formed_box box_a → well_formed_box box_b →
   well_formed_box (combine_bounding_boxes box_a box_b) ∧
   bounding_box_len box_a
   ≤ bounding_box_len (combine_bounding_boxes box_a box_b) ∧
   (bounding_box_len (combine_bounding_boxes box_a box_b) ≤ sys_maxsize →
    len (combine_bounding_boxes box_a box_b)
    = Ok (bounding_box_len (combine_bounding_boxes box_a box_b))) ∧
   (sys_maxsize < bounding_box_len (combine_bounding_boxes box_a box_b) →
    len (combine_bounding_boxes box_a box_b) = Raise OverflowError)).
Proof.
  split; [reflexivity|]. split; [apply combine_contains_first|].
  split; [cbn; lia|]. split; [cbn; lia|]. split; [cbn; lia|].
  intros Hwa Hwb.
  pose proof (combine_well_formed box_a box_b Hwa Hwb) as Hw.
  split; [exact Hw|].
  destruct Hw as [Hh Hw], Hwa as [Hha Hwa].
  assert (0 ≤ bounding_box_len (combine_bounding_boxes box_a box_b)) as Harea
    by (unfold bounding_box_len; by apply Z.mul_nonneg_nonneg).
  split; [unfold bounding_box_len; apply Z.mul_le_mono_nonneg; cbn; lia|].
  unfold len. rewrite (bool_decide_eq_true_2 _ Harea). split.
  - intros Hfit. by rewrite bool_decide_eq_true_2.
  - intros Hbig. by rewrite bool_decide_eq_false_2 by lia.
Qed.

(** Two boxes with non-negative extents: the combined box has area 1. *)
Lemma X15_combine_bounding_boxes_covers_first_witness :
  well_formed_box box_a_example ∧ well_formed_box box_b_example ∧
  len (combine_bounding_boxes box_a_example box_b_example) = Ok 1.
Proof.
  assert (well_formed_box box_a_example) as Ha by (split; cbn; lia).
  assert (well_formed_box box_b_example) as Hb by (split; cbn; lia).
  split; [exact Ha|]. split; [exact Hb|].
  destruct (X15_combine_bounding_boxes_covers_first box_a_example box_b_example)
    as (_ & _ & _ & _ & _ & H).
  destruct (H Ha Hb) as (_ & _ & Hlen & _).
  apply Hlen. vm_compute. intros H0; discriminate H0.
Defined.

(** ** When [s_fill] returns *)

Lemma occurs_or_not self l : occurs self l ∨ ¬ occurs self l.
Proof.
  destruct (get_indices_of_region self l) as [|[x y] rest] eqn:E.
  - right. by intros ?%get_indices_of_region_occurs.
  - left.
    assert ((x, y) ∈ get_indices_of_region self l) as Hin by (rewrite E; left).
    apply elem_of_get_indices_of_region in Hin as (row & col & _ & _ & ? & ? & ?).
    by exists row, col.
Qed.


(** ** Flat regions *)

(** X18: the extents of a box are differences of extreme coordinates, with
    nothing added: for a region whose pixels all lie in one row the box has
    height 0, for a region whose pixels all lie in one column it has width
    0, and in both cases [len] of the box is 0. *)
Theorem X18_flat_region_has_empty_box (self : simularity_set) (l : Z) :
  occurs self l →
  (∀ r1 c1 r2 c2, pixel_of self l r1 c1 → pixel_of self l r2 c2 → r1 = r2) ∨
  (∀ r1 c1 r2 c2, pixel_of self l r1 c1 → pixel_of self l r2 c2 → c1 = c2) →
  ∃ box,
    create_bounding_box self l = Ok box ∧
    (bb_height box = 0 ∨ bb_width box = 0) ∧
    len box = Ok 0.
Proof.
  intros Hocc Hflat.
  destruct (create_bounding_box_occurs self l Hocc) as (box & Hbox & _).
  exists box. split; [exact Hbox|].
  apply create_bounding_box_inv in Hbox
    as (rmin & cmin & rmax & cmax & Hrmin & Hcmin & Hrmax & Hcmax & ->).
  apply py_min_spec in Hrmin as [Hrmin _]. apply py_min_spec in Hcmin as [Hcmin _].
  apply py_max_spec in Hrmax as [Hrmax _]. apply py_max_spec in Hcmax as [Hcmax _].
  apply elem_of_rows_of_region in Hrmin as (r1 & c1 & -> & H1).
  apply elem_of_rows_of_region in Hrmax as (r2 & c2 & -> & H2).
  apply elem_of_cols_of_region in Hcmin as (r3 & c3 & -> & H3).
  apply elem_of_cols_of_region in Hcmax as (r4 & c4 & -> & H4).
  unfold len, bounding_box_len. cbn [bb_height bb_width].
  destruct Hflat as [Hrow|Hcol].
  - rewrite (Hrow r2 c2 r1 c1 H2 H1).
    replace (Z.of_nat r1 - Z.of_nat r1) with 0 by lia.
    split; [by left|reflexivity].
  - rewrite (Hcol r4 c4 r3 c3 H4 H3).
    replace (Z.of_nat c3 - Z.of_nat c3) with 0 by lia.
    split; [by right|]. rewrite Z.mul_0_r. reflexivity.
Qed.

(** Region 2 of the two blocks lies in columns 1 and 2, region 1 in column 0
    alone. *)
Lemma X18_flat_region_has_empty_box_witness :
  occurs (constructed two_blocks black_2x3 two_blocks_sizes) 1 ∧
  ∃ box,
    create_bounding_box (constructed two_blocks black_2x3 two_blocks_sizes) 1
    = Ok box ∧
    len box = Ok 0.
Proof.
  assert (occurs (constructed two_blocks black_2x3 two_blocks_sizes) 1) as Hocc.
  { exists 0%nat, 0%nat. split; [vm_compute; lia|].
    split; [vm_compute; lia|]. vm_compute. reflexivity. }
  assert (∀ r c, pixel_of (constructed two_blocks black_2x3 two_blocks_sizes) 1 r c →
                 c = 0%nat) as Hcol.
  { intros r c (Hr & Hc & Hl).
    change (r < 2)%nat in Hr. change (c < 3)%nat in Hc.
    change (item two_blocks r c = 1) in Hl.
    destruct r as [|[|r]], c as [|[|[|c]]]; try lia; try reflexivity;
      vm_compute in Hl; discriminate Hl. }
  split; [exact Hocc|].
  destruct (X18_flat_region_has_empty_box _ 1 Hocc) as (box & Hbox & _ & Hlen).
  { right. intros r1 c1 r2 c2 H1%Hcol H2%Hcol. congruence. }
  exists box. split; [exact Hbox|exact Hlen].
Defined.

(** ** Counting pairs *)

(** X19: [add_set] of two distinct labels records the pair and makes both
    labels regions; the number of stored pairs grows by one when the pair
    was recorded in neither order, and the adjacency set is unchanged when
    it was recorded already. *)
Theorem X19_add_set_records_pair (self : simularity_set) (a b : Z) :
  a ≠ b →
  recorded (add_set self a b) a b ∧
  a ∈ region_set (add_set self a b) ∧ b ∈ region_set (add_set self a b) ∧
  (recorded self a b → sim_set (add_set self a b) = sim_set self) ∧
  (¬ recorded self a b →
   size (sim_set (add_set self a b)) = S (size (sim_set self))).
Proof.
  intros Hne.
  split; [apply recorded_add_set; right; by split; [|left]|].
  split; [apply elem_of_region_set_add_set; right; by split; [|left]|].
  split; [apply elem_of_region_set_add_set; right; by split; [|right]|].
  split.
  - intros Hrec. apply set_eq. intros p. rewrite elem_of_sim_set_add_set.
    split; [|by left]. intros [?|(_ & Hrev & ->)]; [done|].
    by destruct Hrec.
  - intros Hnew.
    assert (((a, b) ∉ sim_set self) ∧ ((b, a) ∉ sim_set self)) as [Hab Hba]
      by (unfold recorded in Hnew; tauto).
    unfold add_set. rewrite bool_decide_eq_true_2 by done.
    rewrite bool_decide_eq_true_2 by done. cbn [sim_set with_region_set with_sim_set].
    rewrite size_union by set_solver. by rewrite size_singleton.
Qed.

(** Labels 1 and 6 do not touch in the smoke-test image. *)
Lemma X19_add_set_records_pair_witness :
  1 ≠ 6 ∧
  recorded (add_set (constructed test_region_image black_3x3 singletons) 1 6) 1 6.
Proof.
  assert (1 ≠ 6) as Hne by lia.
  split; [exact Hne|].
  destruct (X19_add_set_records_pair
              (constructed test_region_image black_3x3 singletons) 1 6 Hne)
    as [H _].
  exact H.
Defined.
